(** * Sanitization and corpus-evolution pipeline of PromptFuzz

    Shallow embedding of [src/src/execution/sanitize.rs] (with
    [utils::print_san_cost] and [Executor::recheck_seed]), of the flag
    constants of [src/src/config.rs] and of the code-fence stripping, the
    infill stop sequence, the retry loops and the usage log of
    [src/src/request/openai.rs]. *)

From Stdlib Require Import Ascii String NArith.
From Stdlib Require Strings.Byte.
From stdpp Require Import base list gmap sets strings.

(* ------------------------------------------------------------------ *)
(** ** Results: [eyre::Result] with Rust panics *)

(** [ROk] is [Ok], [RErr] is an [eyre] error propagated by [?], and
    [RPanic] is a Rust panic ([unwrap], [expect], [panic!], an index or a
    slice out of range, [%] by zero). *)
Inductive Res (A : Type) : Type :=
| ROk (a : A)
| RErr (msg : string)
| RPanic (msg : string).
Arguments ROk {A} a.
Arguments RErr {A} msg.
Arguments RPanic {A} msg.

(** Explicit state passing with [?]-propagation: the state is threaded
    through errors too, so effects done before an error stay visible. *)
Definition ST (S A : Type) : Type := S -> Res A * S.

Global Instance st_ret {S} : MRet (ST S) := fun A a s => (ROk a, s).
Global Instance st_bind {S} : MBind (ST S) := fun A B k m s =>
  match m s with
  | (ROk a, s') => k a s'
  | (RErr e, s') => (RErr e, s')
  | (RPanic e, s') => (RPanic e, s')
  end.

Definition st_fail {S A} (e : string) : ST S A := fun s => (RErr e, s).
Definition st_panic {S A} (e : string) : ST S A := fun s => (RPanic e, s).

(** [ProgramError] of [execution/logger.rs], as the spec's data model and
    the match arms of [check_programs_are_correct] use it. *)
Inductive ProgramError : Type :=
| Syntax (msg : string)
| Link (msg : string)
| Execute (msg : string)
| Fuzzer (msg : string)
| Hang (msg : string)
| Coverage (msg : string).

(* ------------------------------------------------------------------ *)
(** ** [Executor::check_program_is_correct] *)

Module Pipeline.

Inductive Stage := SSyntax | SLink | SExecute | SFuzz | SCoverage.

Definition stages : list Stage := [SSyntax; SLink; SExecute; SFuzz; SCoverage].

Section Pipeline.
(** The world the stages act on (files, toolchain, shared corpus) and the
    behaviour of each stage function [is_program_*_correct] on it. *)
Variable World : Type.
Variable run_stage : Stage -> World -> Res (option ProgramError) * World.

(** The state records every stage call with its result, in call order. *)
Definition PState : Type := (list (Stage * Res (option ProgramError)) * World)%type.

Definition call (st : Stage) : ST PState (option ProgramError) :=
  fun '(tr, w) =>
    let '(r, w') := run_stage st w in (r, (tr ++ [(st, r)], w')).

Definition check_program_is_correct : ST PState (option ProgramError) :=
  e1 ← call SSyntax;
  match e1 with Some err => mret (Some err) | None =>
  e2 ← call SLink;
  match e2 with Some err => mret (Some err) | None =>
  e3 ← call SExecute;
  match e3 with Some err => mret (Some err) | None =>
  e4 ← call SFuzz;
  match e4 with Some err => mret (Some err) | None =>
  e5 ← call SCoverage;
  match e5 with Some err => mret (Some err) | None =>
  mret None
  end end end end end.
End Pipeline.

End Pipeline.

(* ------------------------------------------------------------------ *)
(** ** [Executor::concurrent_check] and [Executor::concurrent_check_batch] *)

Module Batch.

Section Batch.
(** Exit status (success or not) and captured stderr of the worker
    process [cargo run -q --bin harness -- <lib> check <program>]. *)
Variable child_output : string -> bool * string.
(** [serde_json::from_str::<ProgramError>]. *)
Variable decode_error : string -> option ProgramError.

(** The verdict pushed for one waited child. *)
Definition verdict_of_output (output : bool * string) : option ProgramError :=
  let '(success, err_msg) := output in
  if success then None
  else match decode_error err_msg with
       | Some err => Some err
       | None => Some (Fuzzer err_msg)
       end.

Definition worker_verdict (program : string) : option ProgramError :=
  verdict_of_output (child_output program).

(** [for i in 0..core { if i >= programs.len() { break; }
     let program = programs.get(i).unwrap(); ... spawn ... }] *)
Fixpoint spawn_children (is : list nat) (programs : list string)
    : Res (list (bool * string)) :=
  match is with
  | [] => ROk []
  | i :: is' =>
      if length programs <=? i then ROk []
      else match programs !! i with
           | None => RPanic "called `Option::unwrap()` on a `None` value"
           | Some program =>
               match spawn_children is' programs with
               | ROk childs => ROk (child_output program :: childs)
               | RErr e => RErr e
               | RPanic e => RPanic e
               end
           end
  end.

(** [for (i, child) in childs.into_iter().enumerate() { ... }] *)
Fixpoint wait_children (i : nat) (childs : list (bool * string))
    (programs : list string) : Res (list (option ProgramError)) :=
  match childs with
  | [] => ROk []
  | output :: childs' =>
      match programs !! i with
      | None => RPanic "called `Option::unwrap()` on a `None` value"
      | Some _ =>
          match wait_children (S i) childs' programs with
          | ROk has_errs => ROk (verdict_of_output output :: has_errs)
          | RErr e => RErr e
          | RPanic e => RPanic e
          end
      end
  end.

Definition concurrent_check_batch (programs : list string) (core : nat)
    : Res (list (option ProgramError)) :=
  match spawn_children (seq 0 core) programs with
  | ROk childs => wait_children 0 childs programs
  | RErr e => RErr e
  | RPanic e => RPanic e
  end.

(** The loop of [concurrent_check]: [i] is the number of programs already
    pushed, [n] is [programs.len()]. *)
Fixpoint concurrent_check_loop (ps : list string) (i n core : nat)
    (batch : list string) (has_errs : list (option ProgramError))
    : Res (list (option ProgramError)) :=
  match ps with
  | [] => ROk has_errs
  | program :: ps' =>
      let i := S i in
      let batch := batch ++ [program] in
      if core =? 0 then
        RPanic "attempt to calculate the remainder with a divisor of zero"
      else if (i mod core =? 0) || (i =? n) then
        match concurrent_check_batch batch core with
        | ROk res => concurrent_check_loop ps' i n core [] (has_errs ++ res)
        | RErr e => RErr e
        | RPanic e => RPanic e
        end
      else concurrent_check_loop ps' i n core batch has_errs
  end.

Definition concurrent_check (programs : list string) (core : nat)
    : Res (list (option ProgramError)) :=
  concurrent_check_loop programs 0 (length programs) core [] [].
End Batch.

End Batch.

(* ------------------------------------------------------------------ *)
(** ** [Executor::check_programs_are_correct] and [cleanup_sanitize_dir] *)

Module Cleanup.

(** A directory entry of a WorkDir: its file name and its extension. *)
Record Entry := mkEntry { entry_name : string; entry_ext : option string }.

(** The WorkDirs on disk, keyed by program id: a missing key is a WorkDir
    that does not exist. *)
Abbreviation FS := (gmap nat (list Entry)).

(** The extensions [cleanup_sanitize_dir] keeps. *)
Definition kept_ext (ext : string) : bool :=
  String.eqb ext "log" || String.eqb ext "out" || String.eqb ext "cc"
  || String.eqb ext "profdata" || String.eqb ext "cost".

Definition entry_kept (e : Entry) : bool :=
  match entry_ext e with Some ext => kept_ext ext | None => false end.

Definition no_such_dir : string := "No such file or directory (os error 2)".

(** [cleanup_sanitize_dir]: [read_sort_dir] fails on a missing directory;
    every entry whose extension is not kept is removed. *)
Definition cleanup_sanitize_dir (dir : nat) : ST FS unit := fun fs =>
  match fs !! dir with
  | None => (RErr no_such_dir, fs)
  | Some files => (ROk tt, <[dir := List.filter entry_kept files]> fs)
  end.

(** [std::fs::remove_dir_all]. *)
Definition remove_dir_all (dir : nat) : ST FS unit := fun fs =>
  match fs !! dir with
  | None => (RErr no_such_dir, fs)
  | Some _ => (ROk tt, delete dir fs)
  end.

Definition lift_res {S A} (r : Res A) : ST S A := fun s => (r, s).

(** Modelled from the spec: [Deopt::get_work_seed_by_id] (not under src/)
    gives the seed path inside the program's WorkDir, creating the WorkDir
    when the program enters the pipeline; [std::fs::write] then stores the
    seed file [<id>.cc] there. *)
Definition write_seed (id : nat) : ST FS unit := fun fs =>
  let files := default [] (fs !! id) in
  (ROk tt, <[id := mkEntry "seed" (Some "cc") :: files]> fs).

Fixpoint write_seeds (ids : list nat) : ST FS unit :=
  match ids with
  | [] => mret tt
  | id :: ids' => _ ← write_seed id; write_seeds ids'
  end.

(** [for (i, has_err) in res.iter().enumerate() { let path = &program_paths[i]; ... }] *)
Fixpoint cleanup_loop (i : nat) (res : list (option ProgramError))
    (program_paths : list nat) : ST FS unit :=
  match res with
  | [] => mret tt
  | has_err :: res' =>
      match program_paths !! i with
      | None => st_panic "index out of bounds"
      | Some dir =>
          _ ← cleanup_sanitize_dir dir;
          match has_err with
          | Some (Hang _) => cleanup_loop (S i) res' program_paths
          | Some (Fuzzer _) => cleanup_loop (S i) res' program_paths
          | Some _ => _ ← remove_dir_all dir; cleanup_loop (S i) res' program_paths
          | None => cleanup_loop (S i) res' program_paths
          end
      end
  end.

Section Check.
Variable child_output : string -> bool * string.
Variable decode_error : string -> option ProgramError.
(** The seed path of a program id, handed to the worker process. *)
Variable seed_path : nat -> string.
(** [get_config().cores]. *)
Variable cores : nat.
(** What the worker of program [id] leaves in its own WorkDir. *)
Variable worker_effect : nat -> list Entry -> list Entry.
(** [utils::print_san_cost]: reads the cost logs, can fail. *)
Variable print_san_cost : list nat -> FS -> Res unit.

Definition run_workers (ids : list nat) : ST FS unit := fun fs =>
  (ROk tt, foldr (fun id m => alter (worker_effect id) id m) fs ids).

Definition check_programs_are_correct (ids : list nat)
    : ST FS (list (option ProgramError)) :=
  _ ← write_seeds ids;
  _ ← run_workers ids;
  res ← lift_res (Batch.concurrent_check child_output decode_error
                    (map seed_path ids) cores);
  _ ← (fun fs => (print_san_cost ids fs, fs));
  _ ← cleanup_loop 0 res ids;
  mret res.
End Check.

(** The verdicts whose WorkDir the spec keeps. *)
Definition keeps_workdir (v : option ProgramError) : bool :=
  match v with
  | None | Some (Hang _) | Some (Fuzzer _) => true
  | Some _ => false
  end.

End Cleanup.

(* ------------------------------------------------------------------ *)
(** ** [Executor::evolve_corpus] *)

Module Evolve.

(** A coverage feature of libFuzzer. *)
Abbreviation Feature := Z.

(** Observable side effects, recorded in the order they happen. *)
Inductive Event :=
| EvCompileMinimize                 (* compile(.., Compile::Minimize) *)
| EvLoadGF                          (* read + parse global_feature_file *)
| EvInitGF                          (* GlobalFeature::init_by_corpus *)
| EvMerge                           (* minimize_by_control_file *)
| EvCopy (files : list string)      (* copy_file_to_shared_corpus *)
| EvWriteGF (gf : gset Feature)     (* std::fs::write(global_feature_file) *)
| EvRemoveControl                   (* std::fs::remove_file(control_file) *)
| EvLogUpdate.                      (* time_logger.log("update") *)

Record World := mkWorld {
  gf_file : option (gset Feature);   (* content of the global feature file *)
  shared_corpus : list string;
  control_file : bool;               (* merge_control_file exists *)
  events : list Event
}.

(** The fallible external calls of [evolve_corpus]. *)
Inductive Op := OCompile | ORead | OInit | OMerge | OParse | OCopy | OWrite | ORemove | OLog.

(** What the environment does in one run: which calls fail, what
    [init_by_corpus] computes, whether the merge wrote the control file and
    what [CorporaFeatures::parse] reads from it. *)
Record EvolveEnv := mkEnv {
  env_fails : Op -> bool;
  env_init : gset Feature;
  env_merge_writes_control : bool;
  env_corpora : list (string * list Feature)
}.

Definition set_gf (g : option (gset Feature)) (w : World) : World :=
  mkWorld g (shared_corpus w) (control_file w) (events w).
Definition set_shared (c : list string) (w : World) : World :=
  mkWorld (gf_file w) c (control_file w) (events w).
Definition set_control (b : bool) (w : World) : World :=
  mkWorld (gf_file w) (shared_corpus w) b (events w).
Definition emit (e : Event) (w : World) : World :=
  mkWorld (gf_file w) (shared_corpus w) (control_file w) (events w ++ [e]).

(** One external call: it either fails (nothing happens) or has its
    effect and records its event. *)
Definition call {A} (env : EvolveEnv) (o : Op) (eff : World -> A * World)
    : ST World A := fun w =>
  if env_fails env o then (RErr "io error", w)
  else let '(a, w') := eff w in (ROk a, w').

(** Modelled from the spec: [GlobalFeature::insert_feature]
    ([feedback/clang_coverage], not under src/) inserts a feature into the
    set and reports whether it was newly added. *)
Definition insert_feature (gf : gset Feature) (fe : Feature) : gset Feature * bool :=
  if decide (fe ∈ gf) then (gf, false) else ({[fe]} ∪ gf, true).

(** [for fe in features { if global_featuers.insert_feature( *fe) { has_new = true; } }] *)
Fixpoint insert_features (features : list Feature) (gf : gset Feature)
    (has_new : bool) : gset Feature * bool :=
  match features with
  | [] => (gf, has_new)
  | fe :: features' =>
      let '(gf', added) := insert_feature gf fe in
      insert_features features' gf' (if added then true else has_new)
  end.

(** [for i in 0..corpus_size { ... if has_new { intrestings.push(..) } }] *)
Fixpoint scan_corpora (corpora : list (string * list Feature))
    (gf : gset Feature) (intrestings : list string) : gset Feature * list string :=
  match corpora with
  | [] => (gf, intrestings)
  | (file, features) :: corpora' =>
      let '(gf', has_new) := insert_features features gf false in
      scan_corpora corpora' gf'
        (if has_new then intrestings ++ [file] else intrestings)
  end.

(** [if global_feature_file.exists() { read + parse } else { init_by_corpus }] *)
Definition load_global_features (env : EvolveEnv) : ST World (gset Feature) := fun w =>
  match gf_file w with
  | Some gf => call env ORead (fun w => (gf, emit EvLoadGF w)) w
  | None => call env OInit (fun w => (env_init env, emit EvInitGF w)) w
  end.

Definition evolve_corpus (env : EvolveEnv) : ST World unit :=
  _ ← call env OCompile (fun w => (tt, emit EvCompileMinimize w));
  global_featuers ← load_global_features env;
  _ ← call env OMerge (fun w =>
        (tt, emit EvMerge (set_control (env_merge_writes_control env) w)));
  exists_ctrl ← (fun w => (ROk (control_file w), w));
  if negb exists_ctrl then st_panic "control_file does not exist!" else
  corpora_features ← call env OParse (fun w => (env_corpora env, w));
  let '(global_featuers, intrestings) :=
    scan_corpora corpora_features global_featuers [] in
  _ ← call env OCopy (fun w =>
        (tt, emit (EvCopy intrestings) (set_shared (shared_corpus w ++ intrestings) w)));
  _ ← call env OWrite (fun w =>
        (tt, emit (EvWriteGF global_featuers) (set_gf (Some global_featuers) w)));
  _ ← call env ORemove (fun w => (tt, emit EvRemoveControl (set_control false w)));
  _ ← call env OLog (fun w => (tt, emit EvLogUpdate w));
  mret tt.

(** Successive runs of [evolve_corpus], one environment per run; a failed
    run leaves the state it reached. *)
Definition run_rounds (envs : list EvolveEnv) (w : World) : World :=
  fold_left (fun w env => snd (evolve_corpus env w)) envs w.

(** The feature set a run starts from. *)
Definition loaded_features (env : EvolveEnv) (w : World) : gset Feature :=
  match gf_file w with Some gf => gf | None => env_init env end.

(** Files with a feature absent from the set as it stood before the file
    was scanned. *)
Fixpoint interesting_files (corpora : list (string * list Feature))
    (gf : gset Feature) : list string :=
  match corpora with
  | [] => []
  | (file, features) :: corpora' =>
      (if existsb (fun fe => negb (bool_decide (fe ∈ gf))) features
       then [file] else [])
      ++ interesting_files corpora' (list_to_set features ∪ gf)
  end.

(** The effects of a complete run, in the order the spec requires. *)
Definition full_run_events (env : EvolveEnv) (w : World) : list Event :=
  let gf0 := loaded_features env w in
  let '(gf1, intrestings) := scan_corpora (env_corpora env) gf0 [] in
  [EvCompileMinimize; (if gf_file w then EvLoadGF else EvInitGF); EvMerge;
   EvCopy intrestings; EvWriteGF gf1; EvRemoveControl; EvLogUpdate].

Definition gf_le (a b : option (gset Feature)) : Prop :=
  match a, b with
  | None, _ => True
  | Some s, Some s' => s ⊆ s'
  | Some _, None => False
  end.

(** Every feature of the corpus files [CorporaFeatures::parse] read. *)
Definition corpus_features (corpora : list (string * list Feature)) : gset Feature :=
  list_to_set (concat (map snd corpora)).

End Evolve.

(* ------------------------------------------------------------------ *)
(** ** [Executor::is_program_coverage_correct] *)

Module CoverageStage.

Inductive CovEvent :=
| EvCompileCoverage   (* compile(.., Compile::COVERAGE) into *.cov.out *)
| EvCollect           (* collect_code_coverage over corpus/ and the shared corpus *)
| EvSanitize          (* sanitize_by_fuzzer_coverage *)
| EvTimeLog           (* time_logger.log("coverage") *)
| EvEvolve            (* self.evolve_corpus(program_path) *)
| EvRemoveCorpus      (* std::fs::remove_dir_all(corpus_dir) *)
| EvDump.             (* dump_fuzzer_coverage *)

Inductive CovOp := OCompileCov | OCollect | OSanitize | OTimeLog | OEvolve | ORemoveCorpus | ODump.

(** Which calls fail, the result of the coverage predicate (true when the
    driver misses the callees of the longest path) and the coverage dump. *)
Record CovEnv := mkCovEnv {
  cov_fails : CovOp -> bool;
  cov_has_err : bool;
  cov_dump : string
}.

Definition cov_call {A} (env : CovEnv) (o : CovOp) (e : CovEvent) (a : A)
    : ST (list CovEvent) A := fun evs =>
  if cov_fails env o then (RErr "io error", evs) else (ROk a, evs ++ [e]).

Definition coverage_msg : string :=
  "The program cannot cover the callees along the path that contains maximum callees.".

Definition is_program_coverage_correct (env : CovEnv)
    : ST (list CovEvent) (option ProgramError) :=
  _ ← cov_call env OCompileCov EvCompileCoverage tt;
  _ ← cov_call env OCollect EvCollect tt;
  has_err ← cov_call env OSanitize EvSanitize (cov_has_err env);
  _ ← cov_call env OTimeLog EvTimeLog tt;
  _ ← cov_call env OEvolve EvEvolve tt;
  _ ← cov_call env ORemoveCorpus EvRemoveCorpus tt;
  if negb has_err then mret None else
  err_msg ← cov_call env ODump EvDump (cov_dump env);
  mret (Some (Coverage (coverage_msg ++ String (ascii_of_nat 10) err_msg))).

End CoverageStage.

(* ------------------------------------------------------------------ *)
(** ** Compile flag sets of [config.rs] *)

Module Config.

Definition SANITIZER_FLAGS : list string :=
  ["-fsanitize=fuzzer"; "-g"; "-O1"; "-fsanitize=address,undefined";
   "-ftrivial-auto-var-init=zero";
   "-enable-trivial-auto-var-init-zero-knowing-it-will-be-removed-from-clang";
   "-fsanitize-trap=undefined"; "-fno-sanitize-recover=undefined"].

Definition FUZZER_FLAGS : list string :=
  ["-fsanitize=fuzzer"; "-O1"; "-g"; "-fsanitize=address,undefined";
   "-ftrivial-auto-var-init=zero";
   "-enable-trivial-auto-var-init-zero-knowing-it-will-be-removed-from-clang"].

(** The Fuzzer profile as the spec writes it. *)
Definition spec_fuzzer_profile : list string :=
  ["-fsanitize=fuzzer"; "-O1"; "-g"; "-fsanitize=address,undefined";
   "-ftrivial-auto-var-init=zero";
   "-enable-trivial-auto-var-init-zero-knowing-it-will-be-removed-from-clang"].

End Config.

(* ------------------------------------------------------------------ *)
(** ** [strip_code_prefix] and [strip_code_wrapper] of [request/openai.rs] *)

Module Wrapper.

(** A Rust [&str] as its UTF-8 bytes; [find], [rfind], [starts_with],
    [strip_prefix] and the slices work on bytes. *)
Abbreviation str := (list ascii).

Definition s (x : string) : str := list_ascii_of_string x.

Definition bt : ascii := "`"%char.
Definition nl : ascii := ascii_of_nat 10.
Definition fence : str := [bt; bt; bt].

Fixpoint is_prefix (p l : str) : bool :=
  match p, l with
  | [], _ => true
  | a :: p', b :: l' => if ascii_dec a b then is_prefix p' l' else false
  | _ :: _, [] => false
  end.

(** [str::find]: the first byte index at which [pat] occurs. *)
Fixpoint find_from (pat l : str) (i : nat) : option nat :=
  if is_prefix pat l then Some i
  else match l with
       | [] => None
       | _ :: l' => find_from pat l' (S i)
       end.
Definition find (l pat : str) : option nat := find_from pat l 0.

(** [str::rfind]: the last byte index at which [pat] occurs. *)
Fixpoint rfind_from (pat l : str) (i : nat) : option nat :=
  match l with
  | [] => if is_prefix pat [] then Some i else None
  | _ :: l' =>
      match rfind_from pat l' (S i) with
      | Some j => Some j
      | None => if is_prefix pat l then Some i else None
      end
  end.
Definition rfind (l pat : str) : option nat := rfind_from pat l 0.

(** [char::is_whitespace], as the UTF-8 encodings of the White_Space
    code points: U+0009..U+000D, U+0020, U+0085, U+00A0, U+1680,
    U+2000..U+200A, U+2028, U+2029, U+202F, U+205F, U+3000. *)
Definition whitespace_seqs : list str :=
  map (map ascii_of_nat)
    ([[9]; [10]; [11]; [12]; [13]; [32]; [194; 133]; [194; 160]; [225; 154; 128]]
     ++ map (fun k => [226; 128; 128 + k]) (seq 0 11)
     ++ [[226; 128; 168]; [226; 128; 169]; [226; 128; 175]; [226; 129; 159];
         [227; 128; 128]]).

Fixpoint first_prefix (ps : list str) (l : str) : option str :=
  match ps with
  | [] => None
  | p :: ps' => if is_prefix p l then Some p else first_prefix ps' l
  end.

Fixpoint trim_start_fuel (fuel : nat) (seqs : list str) (l : str) : str :=
  match fuel with
  | 0 => l
  | S fuel' =>
      match first_prefix seqs l with
      | Some p => trim_start_fuel fuel' seqs (drop (length p) l)
      | None => l
      end
  end.

(** [str::trim]: leading and trailing whitespace characters removed. *)
Definition trim (l : str) : str :=
  let l := trim_start_fuel (length l) whitespace_seqs l in
  rev (trim_start_fuel (length l) (map (@rev ascii) whitespace_seqs) (rev l)).

Definition strip_prefix (l pat : str) : option str :=
  if is_prefix pat l then Some (drop (length pat) l) else None.

Definition strip_code_prefix (input pat : str) : str :=
  let pat := fence ++ pat in
  if is_prefix pat input then
    match strip_prefix input pat with
    | Some p => p
    | None => input
    end
  else input.

Definition strip_code_wrapper (input : str) : str :=
  let input := trim input in
  let '(event, input) :=
    match find input fence with
    | Some idx => (take idx input, drop idx input)
    | None => ([], input)
    end in
  let input := strip_code_prefix input (s "cpp") in
  let input := strip_code_prefix input (s "CPP") in
  let input := strip_code_prefix input (s "C++") in
  let input := strip_code_prefix input (s "c++") in
  let input := strip_code_prefix input (s "c") in
  let input := strip_code_prefix input (s "C") in
  let input := strip_code_prefix input [nl] in
  match rfind input fence with
  | Some idx => s "/*" ++ event ++ s "*/" ++ [nl] ++ take idx input
  | None => s "/*" ++ event ++ s "*/" ++ [nl] ++ input
  end.

(** The tags [strip_code_wrapper] tries after the opening fence, in order. *)
Definition code_tags : list str := [s "cpp"; s "CPP"; s "C++"; s "c++"; s "c"; s "C"; [nl]].

(** Whether [```] occurs anywhere in a string. *)
Fixpoint has_fence (l : str) : bool :=
  is_prefix fence l || match l with [] => false | _ :: l' => has_fence l' end.

End Wrapper.

(* ------------------------------------------------------------------ *)
(** ** The stop sequence of [OpenAIHanler::infill] *)

Module Infill.

(** A Rust [String] as its UTF-8 bytes. *)
Abbreviation bytes := (list Byte.byte).

(** [PromptKind] of [request/prompt.rs]: only the [Infill] variant, with
    its prefix and suffix, matters here; every other variant is [OtherKind]. *)
Inductive PromptKind :=
| InfillKind (prefix suffix : bytes)
| OtherKind.

(** [str::is_char_boundary]: index 0, the length, or an index whose byte
    is not a UTF-8 continuation byte ([(b as i8) >= -0x40]). *)
Definition is_char_boundary (l : bytes) (index : nat) : bool :=
  if index =? 0 then true
  else match l !! index with
       | None => index =? length l
       | Some b => negb ((128 <=? Byte.to_nat b) && (Byte.to_nat b <? 192))
       end.

(** [&s[..end]]: panics unless [end] is a char boundary (which includes
    [end <= s.len()]). *)
Definition slice_to (l : bytes) (end_ : nat) : Res bytes :=
  if is_char_boundary l end_ then ROk (take end_ l)
  else RPanic "byte index is not a char boundary or out of range".

(** [infill]: the stop sequence it hands to [generate_infills_by_chat]. *)
Definition infill (kind : PromptKind) : Res (option bytes) :=
  match kind with
  | InfillKind _ suffix =>
      match slice_to suffix 10 with
      | ROk stop => ROk (Some stop)
      | RErr e => RErr e
      | RPanic e => RPanic e
      end
  | OtherKind => ROk None
  end.

End Infill.

(* ------------------------------------------------------------------ *)
(** ** [eyre::Result] as a monad, for code without state *)

Global Instance res_ret : MRet Res := fun A a => ROk a.
Global Instance res_bind : MBind Res := fun A B k m =>
  match m with
  | ROk a => k a
  | RErr e => RErr e
  | RPanic e => RPanic e
  end.

(* ------------------------------------------------------------------ *)
(** ** [utils::print_san_cost] *)

Module SanCost.

Section SanCost.
(** [f32] with the three operations [print_san_cost] applies to it. *)
Variable f32 : Type.
Variable f32_zero : f32.                   (* 0_f32 *)
Variable f32_add : f32 -> f32 -> f32.      (* + *)
Variable f32_gt : f32 -> f32 -> bool.      (* > *)
(** [TimeUsage::new(program_dir).load(stage)] in the WorkDir of a program. *)
Variable load : nat -> string -> Res f32.

(** The six [load]s of one program and their sum. *)
Definition program_cost (program : nat) : Res (f32 * list f32) :=
  syntax ← load program "syntax";
  link ← load program "link";
  execution ← load program "execute";
  fuzz ← load program "fuzz";
  coverage ← load program "coverage";
  update ← load program "update";
  let total := f32_add (f32_add (f32_add (f32_add (f32_add syntax link) execution) fuzz)
                 coverage) update in
  mret (total, [syntax; link; execution; fuzz; coverage; update]).

(** [for program_path in program_paths { ... if total > max_time { ... } }] *)
Fixpoint san_cost_loop (program_paths : list nat) (max_time : f32) (usage : list f32)
    : Res (f32 * list f32) :=
  match program_paths with
  | [] => ROk (max_time, usage)
  | program :: program_paths' =>
      cost ← program_cost program;
      let '(total, times) := cost in
      if f32_gt total max_time then san_cost_loop program_paths' total times
      else san_cost_loop program_paths' max_time usage
  end.

(** [print_san_cost]; the state is the global time logger, as the list of
    the six costs each [inc_san] call added. [usage[0]] .. [usage[5]] are
    read by [log::debug!] (when enabled) and by [inc_san]: both panic on
    an empty [usage]. *)
Definition print_san_cost (program_paths : list nat) : ST (list (list f32)) unit := fun gtl =>
  match san_cost_loop program_paths f32_zero [] with
  | ROk (_, usage) =>
      match usage !! 0, usage !! 1, usage !! 2, usage !! 3, usage !! 4, usage !! 5 with
      | Some u0, Some u1, Some u2, Some u3, Some u4, Some u5 =>
          (ROk tt, gtl ++ [[u0; u1; u2; u3; u4; u5]])
      | _, _, _, _, _, _ =>
          (RPanic "index out of bounds: the len is 0 but the index is 0", gtl)
      end
  | RErr e => (RErr e, gtl)
  | RPanic e => (RPanic e, gtl)
  end.
End SanCost.

End SanCost.

(* ------------------------------------------------------------------ *)
(** ** The retry loops [get_chat_response] and [get_complete_response] of [request/openai.rs] *)

Module Request.

(** [crate::Critical], the classification [is_critical_err] makes of a
    client result. *)
Inductive Critical := Normal | NonCritical | CriticalErr.

(** The errors the request functions return: an [eyre::Report] of the
    client or of the usage log, or [FuzzerError::RetryError]. *)
Inductive ReqError :=
| Report (msg : string)
| RetryError (request : string) (n : nat).

Inductive Outcome (A : Type) : Type :=
| Done (a : A)
| Failed (e : ReqError)
| Panicked (msg : string).
Arguments Done {A} a.
Arguments Failed {A} e.
Arguments Panicked {A} msg.

(** [config::RETRY_N]. *)
Definition RETRY_N : nat := 5.

Section Retry.
Variable Response : Type.
(** The client's answer to attempt [k] of the request: the response or
    the error report. *)
Variable send : nat -> Response + string.
(** [is_critical_err]. *)
Variable is_critical_err : Response + string -> Critical.
(** [log_openai_usage] of a chat response: [None] when it succeeds. *)
Variable log_openai_usage : Response -> option string.
(** [format!("{request:?}")]. *)
Variable request_debug : string.

(** [for _retry in 0..config::RETRY_N] of [get_chat_response]; the second
    component lists the attempts sent, in order. *)
Fixpoint get_chat_response_loop (retries : list nat) (sent : list nat)
    : Outcome Response * list nat :=
  match retries with
  | [] => (Failed (RetryError request_debug RETRY_N), sent)
  | k :: retries' =>
      let response := send k in
      let sent := sent ++ [k] in
      match is_critical_err response with
      | Normal =>
          match response with
          | inr e => (Failed (Report e), sent)
          | inl resp =>
              match log_openai_usage resp with
              | Some e => (Failed (Report e), sent)
              | None => (Done resp, sent)
              end
          end
      | NonCritical => get_chat_response_loop retries' sent
      | CriticalErr =>
          match response with
          | inr e => (Failed (Report e), sent)
          | inl _ => (Panicked "called `Option::unwrap()` on a `None` value", sent)
          end
      end
  end.

Definition get_chat_response : Outcome Response * list nat :=
  get_chat_response_loop (seq 0 RETRY_N) [].

(** The same loop of [get_complete_response], which returns the response
    as it is on [Normal]. *)
Fixpoint get_complete_response_loop (retries : list nat) (sent : list nat)
    : Outcome Response * list nat :=
  match retries with
  | [] => (Failed (RetryError request_debug RETRY_N), sent)
  | k :: retries' =>
      let response := send k in
      let sent := sent ++ [k] in
      match is_critical_err response with
      | Normal =>
          match response with
          | inr e => (Failed (Report e), sent)
          | inl resp => (Done resp, sent)
          end
      | NonCritical => get_complete_response_loop retries' sent
      | CriticalErr =>
          match response with
          | inr e => (Failed (Report e), sent)
          | inl _ => (Panicked "called `Option::unwrap()` on a `None` value", sent)
          end
      end
  end.

Definition get_complete_response : Outcome Response * list nat :=
  get_complete_response_loop (seq 0 RETRY_N) [].
End Retry.

End Request.

(* ------------------------------------------------------------------ *)
(** ** The usage log of [openai_billing] *)

Module Usage.
Import Wrapper.

Local Open Scope N_scope.

(** [u32::to_string]: decimal digits, most significant first; a [u32]
    has at most 10 of them. *)
Fixpoint digits_of (fuel : nat) (n : N) (acc : str) : str :=
  match fuel with
  | O => acc
  | S fuel' =>
      let acc := ascii_of_N (48 + n mod 10) :: acc in
      if n <? 10 then acc else digits_of fuel' (n / 10) acc
  end.

Definition u32_to_string (n : N) : str := digits_of 10 n [].

Definition digit_value (c : ascii) : option N :=
  let k := N_of_ascii c in
  if (48 <=? k) && (k <=? 57) then Some (k - 48) else None.

(** The digit loop of [u32::from_str]: an invalid digit or a value
    above [u32::MAX] is an error. *)
Fixpoint parse_digits (l : str) (acc : N) : option N :=
  match l with
  | [] => Some acc
  | c :: l' =>
      match digit_value c with
      | None => None
      | Some d =>
          let acc := acc * 10 + d in
          if acc <? 2 ^ 32 then parse_digits l' acc else None
      end
  end.

(** [str::parse::<u32>]: an empty string is an error, one leading [+]
    is allowed when digits follow. *)
Definition parse_u32 (l : str) : option N :=
  match l with
  | [] => None
  | c :: l' =>
      if ascii_dec c "+"%char then
        match l' with [] => None | _ => parse_digits l' 0 end
      else parse_digits l 0
  end.

(** [str::split(' ')]. *)
Fixpoint split_char (sep : ascii) (l : str) : list str :=
  match l with
  | [] => [[]]
  | c :: l' =>
      if ascii_dec c sep then [] :: split_char sep l'
      else match split_char sep l' with
           | p :: ps => (c :: p) :: ps
           | [] => [[c]]
           end
  end.

Section Usage.
(** [f32] with its [Display] and [FromStr]. *)
Variable f32 : Type.
Variable f32_to_string : f32 -> str.
Variable parse_f32 : str -> option f32.

(** The globals [PROMPT_USAGE], [COMPLETION_USAGE] and [QUOTA_COST]. *)
Record Counters := mkCounters {
  PROMPT_USAGE : N;
  COMPLETION_USAGE : N;
  QUOTA_COST : f32
}.

(** The content [log_openai_usage] writes to the usage log. *)
Definition usage_log_content (u : Counters) : str :=
  u32_to_string (PROMPT_USAGE u) ++ [" "%char] ++
  u32_to_string (COMPLETION_USAGE u) ++ [" "%char] ++
  f32_to_string (QUOTA_COST u).

(** [load_openai_usage]; [log] is the content of the usage log when the
    file exists. *)
Definition load_openai_usage (log : option str) : ST Counters unit := fun u =>
  match log with
  | None => (ROk tt, u)
  | Some content =>
      let parts := split_char " "%char content in
      if negb (Nat.eqb (length parts) 3) then (RPanic "assertion `left == right` failed", u)
      else match parts with
           | [p0; p1; p2] =>
               match parse_u32 p0 with
               | None => (RErr "invalid digit found in string", u)
               | Some prompt_usage =>
                   match parse_u32 p1 with
                   | None => (RErr "invalid digit found in string", u)
                   | Some completion_usage =>
                       match parse_f32 p2 with
                       | None => (RErr "invalid float literal", u)
                       | Some quota_cost =>
                           (ROk tt, mkCounters prompt_usage completion_usage quota_cost)
                       end
                   end
               end
           | _ => (RPanic "index out of bounds", u)
           end
  end.
End Usage.

End Usage.

(* ------------------------------------------------------------------ *)
(** ** [Executor::recheck_seed] *)

Module Recheck.

(** The calls of [recheck_seed] that leave a trace, in order. *)
Inductive RcEvent :=
| EvCompileSeed (id : nat)              (* self.compile_seed(seed_id) *)
| EvSaveErr (id : nat) (msg : string)   (* deopt.save_err_program *)
| EvDeleteQueue (id : nat).             (* deopt.delete_seed_from_queue *)

Record RcWorld := mkRcWorld {
  succ_files : list nat;    (* the files of the succ seed dir, as [read_sort_dir] lists them *)
  seed_files : gset nat;    (* the ids whose seed file exists *)
  rc_events : list RcEvent
}.

(** The fallible calls of one iteration. *)
Inductive RcOp := OLoadSeed | OCompileSeed | OCorpusDir | OWorkSeed | OSeedPath | OSaveErr
                | ORemove.

(** Which calls fail, the id [Program::load_from_path] reads from a succ
    seed file, and what [execute_pool] reports for the binary of an id. *)
Record RecheckEnv := mkRcEnv {
  rc_fails : RcOp -> nat -> bool;
  rc_program_id : nat -> nat;
  rc_execute_pool : nat -> option string
}.

Definition rc_call (env : RecheckEnv) (o : RcOp) (x : nat) (eff : RcWorld -> RcWorld)
    : ST RcWorld unit := fun w =>
  if rc_fails env o x then (RErr "io error", w) else (ROk tt, eff w).

Definition rc_emit (e : RcEvent) (w : RcWorld) : RcWorld :=
  mkRcWorld (succ_files w) (seed_files w) (rc_events w ++ [e]).

(** [std::fs::remove_file(succ_seed)]: an error when the file is missing. *)
Definition remove_succ (env : RecheckEnv) (succ_seed : nat) : ST RcWorld unit := fun w =>
  if rc_fails env ORemove succ_seed || negb (bool_decide (succ_seed ∈ succ_files w))
  then (RErr "No such file or directory (os error 2)", w)
  else (ROk tt, mkRcWorld (List.filter (fun f => negb (f =? succ_seed)) (succ_files w))
                  (seed_files w) (rc_events w)).

(** [if seed.exists() { std::fs::remove_file(seed)?; deopt.delete_seed_from_queue(..); }] *)
Definition remove_seed (env : RecheckEnv) (seed_id : nat) : ST RcWorld unit := fun w =>
  if bool_decide (seed_id ∈ seed_files w) then
    if rc_fails env ORemove seed_id then (RErr "io error", w)
    else (ROk tt, mkRcWorld (succ_files w) (seed_files w ∖ {[seed_id]})
                    (rc_events w ++ [EvDeleteQueue seed_id]))
  else (ROk tt, w).

(** [for succ_seed in &succ_seeds { ... }] *)
Fixpoint recheck_loop (env : RecheckEnv) (succ_seeds : list nat) : ST RcWorld unit :=
  match succ_seeds with
  | [] => mret tt
  | succ_seed :: succ_seeds' =>
      _ ← rc_call env OLoadSeed succ_seed id;
      let seed_id := rc_program_id env succ_seed in
      _ ← rc_call env OCompileSeed seed_id (rc_emit (EvCompileSeed seed_id));
      _ ← rc_call env OCorpusDir seed_id id;
      _ ← rc_call env OWorkSeed seed_id id;
      match rc_execute_pool env seed_id with
      | None => recheck_loop env succ_seeds'
      | Some err_msg =>
          _ ← rc_call env OSeedPath seed_id id;
          _ ← rc_call env OSaveErr seed_id (rc_emit (EvSaveErr seed_id err_msg));
          _ ← remove_succ env succ_seed;
          _ ← remove_seed env seed_id;
          recheck_loop env succ_seeds'
      end
  end.

(** The seeds [recheck_seed] reports as "rechecked as Error". *)
Definition rechecked_as_error (env : RecheckEnv) (p : nat) : bool :=
  match rc_execute_pool env (rc_program_id env p) with Some _ => true | None => false end.

(** [recheck_seed]: the succ seed dir is listed once, then every listed
    seed is rechecked. *)
Definition recheck_seed (env : RecheckEnv) : ST RcWorld unit := fun w =>
  recheck_loop env (succ_files w) w.

End Recheck.

(* ================================================================== *)
(** * Proofs *)

Module PipelineProofs.
Import Pipeline.

Ltac step_stage :=
  match goal with
  | |- context [?f ?st ?w] =>
      match type of f with
      | Stage -> _ -> _ =>
        let r := fresh "r" in let w' := fresh "w" in
        destruct (f st w) as [r w'];
        destruct r as [[?|]|?|?]; cbn
      end
  end.

Ltac finish_trace :=
  match goal with
  | |- (exists pre ls, ?tr = pre ++ [(ls, _)] /\ _) /\ _ =>
      split;
      [ exists (removelast tr), (fst (List.last tr (SSyntax, ROk None)));
        split; [reflexivity | repeat constructor]
      | split; [reflexivity | intros; first [reflexivity | discriminate]] ]
  end.

(** C1: the five stages are called in the order Syntax, Link, Execute,
    Fuzz, Coverage; every stage called before the last one returned [Ok(None)],
    the returned verdict is the result of the last stage called (so the
    first failing stage gives the verdict and no later stage runs), and the
    verdict is [Ok(None)] only if all five stages ran. *)
Theorem check_program_is_correct_first_failure_aborts
    (World : Type) (run_stage : Stage -> World -> Res (option ProgramError) * World)
    (w0 : World) :
  let '(r, (tr, _)) := check_program_is_correct World run_stage ([], w0) in
  (exists pre last_stage,
     tr = pre ++ [(last_stage, r)] /\
     Forall (fun p => snd p = ROk None) pre) /\
  map fst tr = take (length tr) stages /\
  (r = ROk None -> map fst tr = stages).
Proof.
  unfold check_program_is_correct, call, mbind, st_bind, mret, st_ret; cbn.
  repeat (step_stage; try finish_trace).
Qed.

End PipelineProofs.

Module BatchProofs.
Import Batch.

Lemma mod_succ_nonzero (c i : nat) :
  0 < c -> S i mod c <> 0 -> S i mod c = S (i mod c).
Proof.
  intros Hc Hne.
  pose proof (Nat.div_mod_eq i c) as Hi.
  pose proof (Nat.mod_upper_bound i c ltac:(lia)) as Hr.
  destruct (decide (S (i mod c) = c)) as [Heq|Hneq].
  - exfalso; apply Hne.
    replace (S i) with (S (i / c) * c) by nia.
    apply Nat.Div0.mod_mul.
  - symmetry; apply (Nat.mod_unique (S i) c (i / c)); lia.
Qed.

Section BatchLemmas.
Variable child_output : string -> bool * string.
Variable decode_error : string -> option ProgramError.

Lemma spawn_children_take (c s : nat) (programs : list string) :
  spawn_children child_output (seq s c) programs
  = ROk (map child_output (take c (drop s programs))).
Proof.
  revert s; induction c as [|c IH]; intros s; [reflexivity|].
  cbn [seq spawn_children].
  destruct (Nat.leb_spec (length programs) s) as [Hle|Hlt].
  - rewrite drop_ge by lia. reflexivity.
  - destruct (lookup_lt_is_Some_2 programs s Hlt) as [p Hp].
    rewrite Hp, IH, (drop_S programs p s Hp). reflexivity.
Qed.

Lemma wait_children_map (childs : list (bool * string)) (i : nat)
    (programs : list string) :
  i + length childs <= length programs ->
  wait_children decode_error i childs programs
  = ROk (map (verdict_of_output decode_error) childs).
Proof.
  revert i; induction childs as [|o childs IH]; intros i Hlen; [reflexivity|].
  cbn [wait_children length] in *.
  destruct (lookup_lt_is_Some_2 programs i ltac:(lia)) as [p Hp].
  rewrite Hp, IH by lia. reflexivity.
Qed.

Lemma concurrent_check_batch_map (batch : list string) (core : nat) :
  length batch <= core ->
  concurrent_check_batch child_output decode_error batch core
  = ROk (map (worker_verdict child_output decode_error) batch).
Proof.
  intros Hlen. unfold concurrent_check_batch.
  rewrite spawn_children_take, drop_0, take_ge by lia.
  rewrite wait_children_map by (rewrite length_map; lia).
  rewrite map_map. reflexivity.
Qed.

Lemma concurrent_check_loop_map (core n : nat) (ps batch : list string)
    (i : nat) (acc : list (option ProgramError)) :
  0 < core -> i + length ps = n -> length batch = i mod core ->
  (i = n -> batch = []) ->
  concurrent_check_loop child_output decode_error ps i n core batch acc
  = ROk (acc ++ map (worker_verdict child_output decode_error) (batch ++ ps)).
Proof.
  intros Hc. revert i batch acc.
  induction ps as [|p ps IH]; intros i batch acc Hn Hb Hend.
  - cbn in Hn. rewrite (Hend ltac:(lia)). cbn. by rewrite app_nil_r.
  - cbn [concurrent_check_loop length] in *.
    assert (Hcore : (core =? 0) = false) by (apply Nat.eqb_neq; lia).
    rewrite Hcore.
    pose proof (Nat.mod_upper_bound i core ltac:(lia)) as Hup.
    destruct ((S i mod core =? 0) || (S i =? n)) eqn:Hflush.
    + rewrite concurrent_check_batch_map
        by (rewrite length_app; cbn; lia).
      destruct ps as [|q ps].
      * reflexivity.
      * rewrite IH; cbn [length] in *.
        -- rewrite <- app_assoc, <- map_app, <- app_assoc. reflexivity.
        -- lia.
        -- apply orb_true_iff in Hflush as [H|H];
             [apply Nat.eqb_eq in H; cbn; lia | apply Nat.eqb_eq in H; lia].
        -- reflexivity.
    + apply orb_false_iff in Hflush as [H1 H2].
      apply Nat.eqb_neq in H1, H2.
      rewrite IH.
      * rewrite <- app_assoc. reflexivity.
      * lia.
      * rewrite length_app, Hb, (mod_succ_nonzero core i Hc H1); cbn; lia.
      * intros; lia.
Qed.
End BatchLemmas.

(** C2: for every core count [core >= 1], [concurrent_check] returns [Ok]
    with one verdict per input program, in input order: the verdict at
    index [i] is the worker verdict of the program at index [i]. *)
Theorem concurrent_check_preserves_order
    (child_output : string -> bool * string)
    (decode_error : string -> option ProgramError)
    (programs : list string) (core : nat) :
  1 <= core ->
  exists res,
    concurrent_check child_output decode_error programs core = ROk res /\
    res = map (worker_verdict child_output decode_error) programs /\
    length res = length programs /\
    (forall i p, programs !! i = Some p ->
       res !! i = Some (worker_verdict child_output decode_error p)).
Proof.
  intros Hcore.
  exists (map (worker_verdict child_output decode_error) programs).
  split; [|split; [reflexivity|split]].
  - unfold concurrent_check.
    rewrite concurrent_check_loop_map; cbn; auto; try lia.
    symmetry; apply Nat.Div0.mod_0_l.
  - apply length_map.
  - intros i p Hp. rewrite list_lookup_fmap, Hp. reflexivity.
Qed.

Lemma concurrent_check_preserves_order_witness :
  1 <= 2 /\
  exists res,
    concurrent_check (fun p => if String.eqb p "a.cc" then (true, ""%string) else (false, "crash"%string))
      (fun _ => None) ["a.cc"; "b.cc"; "a.cc"] 2 = ROk res /\
    res = [None; Some (Fuzzer "crash"); None] /\
    length res = 3.
Proof.
  split; [lia|].
  destruct (concurrent_check_preserves_order
              (fun p => if String.eqb p "a.cc" then (true, ""%string) else (false, "crash"%string))
              (fun _ => None) ["a.cc"; "b.cc"; "a.cc"] 2 ltac:(lia))
    as (res & Hres & Hmap & Hlen & _).
  exists res. split; [exact Hres|]. split; [rewrite Hmap; reflexivity | exact Hlen].
Defined.


End BatchProofs.

Module CleanupProofs.
Import Cleanup.

Ltac unfold_st := unfold mbind, st_bind, mret, st_ret, st_panic in *.

Lemma cleanup_loop_no_new (res : list (option ProgramError)) (i : nat)
    (paths : list nat) (fs fs' : FS) (r : Res unit) (x : nat) :
  cleanup_loop i res paths fs = (r, fs') -> fs !! x = None -> fs' !! x = None.
Proof.
  revert i fs; induction res as [|has_err res IH]; intros i fs H Hx;
    cbn [cleanup_loop] in H; unfold_st.
  - injection H as _ <-; exact Hx.
  - destruct (paths !! i) as [dir|]; [|injection H as _ <-; exact Hx].
    unfold cleanup_sanitize_dir in H.
    destruct (fs !! dir) as [files|] eqn:Hdir; [|injection H as _ <-; exact Hx].
    assert (Hx1 : <[dir := List.filter entry_kept files]> fs !! x = None)
      by (rewrite lookup_insert_ne; [exact Hx | congruence]).
    destruct has_err as [[]|]; try (eapply IH; [exact H | exact Hx1]);
      (unfold remove_dir_all in H; rewrite lookup_insert_eq in H;
       eapply IH; [exact H | rewrite lookup_delete_None; auto]).
Qed.

Lemma cleanup_loop_keeps (res : list (option ProgramError)) (i : nat)
    (paths : list nat) (fs fs' : FS) (r : Res unit) (x : nat) :
  cleanup_loop i res paths fs = (r, fs') ->
  (forall j, i <= j -> paths !! j <> Some x) ->
  is_Some (fs !! x) -> is_Some (fs' !! x).
Proof.
  revert i fs; induction res as [|has_err res IH]; intros i fs H Hnot Hx;
    cbn [cleanup_loop] in H; unfold_st.
  - injection H as _ <-; exact Hx.
  - destruct (paths !! i) as [dir|] eqn:Hi; [|injection H as _ <-; exact Hx].
    assert (Hne : dir <> x) by (intros ->; exact (Hnot i (le_n _) Hi)).
    assert (Hnot' : forall j, S i <= j -> paths !! j <> Some x)
      by (intros j Hj; apply Hnot; lia).
    unfold cleanup_sanitize_dir in H.
    destruct (fs !! dir) as [files|] eqn:Hdir; [|injection H as _ <-; exact Hx].
    assert (Hx1 : is_Some (<[dir := List.filter entry_kept files]> fs !! x))
      by (rewrite lookup_insert_ne; [exact Hx | congruence]).
    destruct has_err as [[]|]; try (eapply IH; [exact H | exact Hnot' | exact Hx1]);
      (unfold remove_dir_all in H; rewrite lookup_insert_eq in H;
       eapply IH; [exact H | exact Hnot' | rewrite lookup_delete_ne; auto]).
Qed.

Lemma cleanup_loop_spec (res : list (option ProgramError)) (i : nat)
    (paths : list nat) (fs fs' : FS) :
  NoDup paths ->
  cleanup_loop i res paths fs = (ROk tt, fs') ->
  forall k v id, res !! k = Some v -> paths !! (i + k) = Some id ->
    (keeps_workdir v = true -> is_Some (fs' !! id)) /\
    (keeps_workdir v = false -> fs' !! id = None).
Proof.
  intros Hnd. revert i fs; induction res as [|has_err res IH]; intros i fs H k v id Hk Hid;
    [discriminate Hk|].
  cbn [cleanup_loop] in H; unfold_st.
  destruct (paths !! i) as [dir|] eqn:Hi; [|discriminate H].
  unfold cleanup_sanitize_dir in H.
  destruct (fs !! dir) as [files|] eqn:Hdir; [|discriminate H].
  destruct k as [|k].
  - cbn in Hk. injection Hk as <-. rewrite Nat.add_0_r, Hi in Hid. injection Hid as <-.
    assert (Hnot : forall j, S i <= j -> paths !! j <> Some dir).
    { intros j Hj Hj'. pose proof (NoDup_lookup paths i j dir Hnd Hi Hj'). lia. }
    destruct has_err as [[]|]; cbn [keeps_workdir];
      try (split; [intros _; eapply cleanup_loop_keeps;
                   [exact H | exact Hnot | rewrite lookup_insert_eq; eauto]
                  | discriminate]);
      (unfold remove_dir_all in H; rewrite lookup_insert_eq in H;
       split; [discriminate | intros _;
               eapply cleanup_loop_no_new; [exact H | apply lookup_delete_eq]]).
  - cbn in Hk. rewrite <- Nat.add_succ_comm in Hid.
    destruct has_err as [[]|]; try (eapply IH; [exact H | exact Hk | exact Hid]);
      (unfold remove_dir_all in H; rewrite lookup_insert_eq in H;
       eapply IH; [exact H | exact Hk | exact Hid]).
Qed.

(** C3: after [check_programs_are_correct] returns [Ok(res)], with every
    program owning its own WorkDir (distinct ids), the WorkDir of every
    candidate whose verdict is [None], [Hang(_)] or [Fuzzer(_)] still
    exists, and the WorkDir of every candidate with any other verdict
    ([Syntax], [Link], [Execute], [Coverage]) has been removed. *)
Theorem check_programs_are_correct_cleanup
    (child_output : string -> bool * string)
    (decode_error : string -> option ProgramError)
    (seed_path : nat -> string) (cores : nat)
    (worker_effect : nat -> list Entry -> list Entry)
    (print_san_cost : list nat -> FS -> Res unit)
    (ids : list nat) (fs0 fs1 : FS) (res : list (option ProgramError)) :
  NoDup ids ->
  check_programs_are_correct child_output decode_error seed_path cores
    worker_effect print_san_cost ids fs0 = (ROk res, fs1) ->
  forall i id v, ids !! i = Some id -> res !! i = Some v ->
    (keeps_workdir v = true -> is_Some (fs1 !! id)) /\
    (keeps_workdir v = false -> fs1 !! id = None).
Proof.
  intros Hnd H.
  unfold check_programs_are_correct, run_workers, lift_res in H; unfold_st.
  destruct (write_seeds ids fs0) as [[[]| |] fs2]; try discriminate H.
  destruct (Batch.concurrent_check _ _ _ _) as [res'| |]; try discriminate H.
  destruct (print_san_cost _ _) as [[]| |]; try discriminate H.
  destruct (cleanup_loop 0 res' ids _) as [[[]| |] fs3] eqn:Hc; try discriminate H.
  injection H as <- <-.
  intros i id v Hid Hv.
  exact (cleanup_loop_spec res' 0 ids _ _ Hnd Hc i v id Hv Hid).
Qed.

Lemma check_programs_are_correct_cleanup_witness :
  NoDup [1; 2] /\
  check_programs_are_correct
    (fun p => if String.eqb p "1" then (true, ""%string) else (false, "x"%string))
    (fun msg => Some (Syntax msg)) (fun n => if n =? 1 then "1"%string else "2"%string)
    2 (fun _ files => files) (fun _ _ => ROk tt) [1; 2] ∅
  = (ROk [None; Some (Syntax "x")], <[1 := [mkEntry "seed" (Some "cc")]]> ∅) /\
  (forall i id v, [1; 2] !! i = Some id -> [None; Some (Syntax "x")] !! i = Some v ->
    (keeps_workdir v = true -> is_Some ((<[1 := [mkEntry "seed" (Some "cc")]]> ∅ : FS) !! id)) /\
    (keeps_workdir v = false -> (<[1 := [mkEntry "seed" (Some "cc")]]> ∅ : FS) !! id = None)).
Proof.
  assert (Hnd : NoDup [1; 2]) by (repeat constructor; set_solver).
  assert (Heq : check_programs_are_correct
    (fun p => if String.eqb p "1" then (true, ""%string) else (false, "x"%string))
    (fun msg => Some (Syntax msg)) (fun n => if n =? 1 then "1"%string else "2"%string)
    2 (fun _ files => files) (fun _ _ => ROk tt) [1; 2] ∅
    = (ROk [None; Some (Syntax "x")], <[1 := [mkEntry "seed" (Some "cc")]]> ∅))
    by (vm_compute; reflexivity).
  split; [exact Hnd | split; [exact Heq |]].
  exact (check_programs_are_correct_cleanup _ _ _ _ _ _ _ _ _ _ Hnd Heq).
Defined.

End CleanupProofs.

Module EvolveProofs.
Import Evolve.

Lemma insert_features_spec (features : list Feature) (gf : gset Feature) (has_new : bool) :
  insert_features features gf has_new
  = (list_to_set features ∪ gf,
     has_new || existsb (fun fe => negb (bool_decide (fe ∈ gf))) features).
Proof.
  revert gf has_new; induction features as [|fe features IH]; intros gf has_new.
  - cbn. f_equal; [set_solver | by rewrite orb_false_r].
  - cbn [insert_features existsb list_to_set]. unfold insert_feature.
    destruct (decide (fe ∈ gf)) as [Hin|Hnin].
    + rewrite IH, (bool_decide_eq_true_2 _ Hin). cbn.
      f_equal; set_solver.
    + rewrite IH, (bool_decide_eq_false_2 _ Hnin). cbn.
      f_equal; [set_solver | by rewrite orb_true_r].
Qed.

Lemma scan_corpora_interesting (corpora : list (string * list Feature))
    (gf : gset Feature) (acc : list string) :
  snd (scan_corpora corpora gf acc) = acc ++ interesting_files corpora gf.
Proof.
  revert gf acc; induction corpora as [|[file features] corpora IH]; intros gf acc.
  - cbn. by rewrite app_nil_r.
  - cbn [scan_corpora interesting_files].
    rewrite insert_features_spec, IH; cbn [orb].
    destruct (existsb _ features); cbn; [by rewrite <- app_assoc | reflexivity].
Qed.

Lemma scan_corpora_grows (corpora : list (string * list Feature))
    (gf : gset Feature) (acc : list string) :
  gf ⊆ fst (scan_corpora corpora gf acc).
Proof.
  revert gf acc; induction corpora as [|[file features] corpora IH]; intros gf acc.
  - reflexivity.
  - cbn [scan_corpora]. rewrite insert_features_spec.
    etransitivity; [|apply IH]. set_solver.
Qed.

Ltac solve_prefix_branch :=
  split; [lia|];
  split; [cbn; rewrite <- ?app_assoc, ?app_nil_r; reflexivity|];
  split; [reflexivity|];
  split; [cbn; reflexivity|];
  intros; first [reflexivity | discriminate].

(** What one run of [evolve_corpus] does, whichever call fails: its
    effects are the first [k] effects of a complete run, the feature file
    is written exactly at step 5 and the shared corpus extended exactly at
    step 4, and the run succeeds only when all seven effects happened. *)
Lemma evolve_corpus_cases (env : EvolveEnv) (w : World) :
  let '(gf1, ints) := scan_corpora (env_corpora env) (loaded_features env w) [] in
  let '(r, w') := evolve_corpus env w in
  exists k, k <= 7 /\
    events w' = events w ++ take k (full_run_events env w) /\
    gf_file w' = (if 5 <=? k then Some gf1 else gf_file w) /\
    shared_corpus w' = (if 4 <=? k then shared_corpus w ++ ints else shared_corpus w) /\
    (r = ROk tt -> k = 7).
Proof.
  unfold full_run_events, loaded_features.
  destruct w as [g c b evs]; cbn [gf_file shared_corpus control_file events].
  destruct (scan_corpora (env_corpora env) (match g with Some gf => gf | None => env_init env end) [])
    as [gf1 ints] eqn:Hscan.
  unfold evolve_corpus, load_global_features, call, mbind, st_bind, mret, st_ret, st_panic.
  destruct g as [gf|]; cbn [gf_file];
  destruct (env_fails env OCompile); cbn; try (exists 0; solve_prefix_branch);
  match goal with
  | |- context [env_fails env ORead] => destruct (env_fails env ORead)
  | |- context [env_fails env OInit] => destruct (env_fails env OInit)
  end; cbn;
  try (exists 1; solve_prefix_branch);
  destruct (env_fails env OMerge); cbn; try (exists 2; solve_prefix_branch);
  destruct (env_merge_writes_control env); cbn; try (exists 3; solve_prefix_branch);
  destruct (env_fails env OParse); cbn; try (exists 3; solve_prefix_branch);
  rewrite Hscan;
  destruct (env_fails env OCopy); cbn; try (exists 3; solve_prefix_branch);
  destruct (env_fails env OWrite); cbn; try (exists 4; solve_prefix_branch);
  destruct (env_fails env ORemove); cbn; try (exists 5; solve_prefix_branch);
  destruct (env_fails env OLog); cbn; try (exists 6; solve_prefix_branch);
  exists 7; solve_prefix_branch.
Qed.

Lemma gf_le_refl (a : option (gset Feature)) : gf_le a a.
Proof. destruct a; cbn; [reflexivity | exact I]. Qed.

Lemma gf_le_trans (a b c : option (gset Feature)) :
  gf_le a b -> gf_le b c -> gf_le a c.
Proof. destruct a, b, c; cbn; intros; try contradiction; auto; set_solver. Qed.

Lemma evolve_corpus_gf_le (env : EvolveEnv) (w : World) :
  gf_le (gf_file w) (gf_file (snd (evolve_corpus env w))).
Proof.
  pose proof (evolve_corpus_cases env w) as H.
  pose proof (scan_corpora_grows (env_corpora env) (loaded_features env w) []) as Hg.
  destruct (scan_corpora _ _ _) as [gf1 ints].
  destruct (evolve_corpus env w) as [r w'].
  destruct H as (k & _ & _ & Hgf & _). cbn [snd]. rewrite Hgf.
  destruct (5 <=? k); [|apply gf_le_refl].
  unfold loaded_features in Hg. cbn in Hg |- *.
  destruct (gf_file w); cbn; [exact Hg | exact I].
Qed.

(** C4: in a successful run of [evolve_corpus], a corpus file of the
    merge control file is interesting (some [insert_feature] of one of its
    features reports a newly added feature) if and only if one of its
    features is absent from the global feature set as it stood before the
    file was scanned; exactly the interesting files, in order, are copied
    into the shared corpus. *)
Theorem evolve_corpus_copies_interesting (env : EvolveEnv) (w w' : World) :
  evolve_corpus env w = (ROk tt, w') ->
  let copied := interesting_files (env_corpora env) (loaded_features env w) in
  shared_corpus w' = shared_corpus w ++ copied /\
  In (EvCopy copied) (events w') /\
  (forall features gf,
     snd (insert_features features gf false) = true <->
     exists fe, In fe features /\ fe ∉ gf).
Proof.
  intros Hrun copied.
  pose proof (evolve_corpus_cases env w) as H.
  pose proof (scan_corpora_interesting (env_corpora env) (loaded_features env w) []) as Hi.
  destruct (scan_corpora _ _ _) as [gf1 ints]. cbn in Hi. subst ints.
  rewrite Hrun in H. destruct H as (k & _ & Hev & _ & Hsh & Hk).
  specialize (Hk eq_refl); subst k.
  split; [exact Hsh|]. split.
  - rewrite Hev. apply in_or_app. right. unfold full_run_events.
    pose proof (scan_corpora_interesting (env_corpora env) (loaded_features env w) []) as Hi.
    destruct (scan_corpora _ _ _) as [gf2 ints2]. cbn in Hi |- *. subst ints2.
    right; right; right; left; reflexivity.
  - intros features gf. rewrite insert_features_spec. cbn.
    rewrite existsb_exists. split.
    + intros (fe & Hin & Hn). exists fe. split; [exact Hin|].
      apply negb_true_iff, bool_decide_eq_false in Hn. exact Hn.
    + intros (fe & Hin & Hn). exists fe. split; [exact Hin|].
      apply negb_true_iff, bool_decide_eq_false. exact Hn.
Qed.

Lemma evolve_corpus_copies_interesting_witness :
  evolve_corpus (mkEnv (fun _ => false) ∅ true [("a", [1; 2]); ("b", [2]); ("c", [3])]%Z)
    (mkWorld None [] false [])
  = (ROk tt, mkWorld (Some {[1; 2; 3]}%Z) ["a"; "c"] false
       [EvCompileMinimize; EvInitGF; EvMerge; EvCopy ["a"; "c"];
        EvWriteGF {[1; 2; 3]}%Z; EvRemoveControl; EvLogUpdate]) /\
  shared_corpus (mkWorld (Some {[1; 2; 3]}%Z) ["a"; "c"] false []) = ["a"; "c"] /\
  interesting_files [("a", [1; 2]); ("b", [2]); ("c", [3])]%Z ∅ = ["a"; "c"].
Proof.
  assert (Hrun : evolve_corpus (mkEnv (fun _ => false) ∅ true [("a", [1; 2]); ("b", [2]); ("c", [3])]%Z)
    (mkWorld None [] false [])
  = (ROk tt, mkWorld (Some {[1; 2; 3]}%Z) ["a"; "c"] false
       [EvCompileMinimize; EvInitGF; EvMerge; EvCopy ["a"; "c"];
        EvWriteGF {[1; 2; 3]}%Z; EvRemoveControl; EvLogUpdate]))
    by (vm_compute; reflexivity).
  split; [exact Hrun|].
  destruct (evolve_corpus_copies_interesting _ _ _ Hrun) as [Hsh _].
  split; [exact Hsh | vm_compute; reflexivity].
Defined.

(** C5: the global feature set only grows: every run of [evolve_corpus]
    (successful, failed or panicking) leaves a feature file that contains
    the one it found; a successful run persists a superset of the set it
    loaded or initialised; and over any sequence of rounds the file at a
    later round contains the file at an earlier round. *)
Theorem evolve_corpus_monotone :
  (forall env w, gf_le (gf_file w) (gf_file (snd (evolve_corpus env w)))) /\
  (forall env w w', evolve_corpus env w = (ROk tt, w') ->
     exists gf, gf_file w' = Some gf /\ loaded_features env w ⊆ gf) /\
  (forall envs w, gf_le (gf_file w) (gf_file (run_rounds envs w))).
Proof.
  split; [exact evolve_corpus_gf_le|]. split.
  - intros env w w' Hrun.
    pose proof (evolve_corpus_cases env w) as H.
    pose proof (scan_corpora_grows (env_corpora env) (loaded_features env w) []) as Hg.
    destruct (scan_corpora _ _ _) as [gf1 ints].
    rewrite Hrun in H. destruct H as (k & _ & _ & Hgf & _ & Hk).
    specialize (Hk eq_refl); subst k. exists gf1. split; [exact Hgf | exact Hg].
  - intros envs. unfold run_rounds.
    induction envs as [|env envs IH]; intros w; [apply gf_le_refl|].
    cbn [fold_left]. eapply gf_le_trans; [apply evolve_corpus_gf_le | apply IH].
Qed.

Lemma evolve_corpus_monotone_witness :
  evolve_corpus (mkEnv (fun _ => false) ∅ true [("a", [1; 2])]%Z)
    (mkWorld (Some {[5]}%Z) [] false [])
  = (ROk tt, mkWorld (Some {[1; 2; 5]}%Z) ["a"] false
       [EvCompileMinimize; EvLoadGF; EvMerge; EvCopy ["a"];
        EvWriteGF {[1; 2; 5]}%Z; EvRemoveControl; EvLogUpdate]) /\
  exists gf, Some {[1; 2; 5]}%Z = Some gf /\ ({[5]}%Z : gset Z) ⊆ gf.
Proof.
  assert (Hrun : evolve_corpus (mkEnv (fun _ => false) ∅ true [("a", [1; 2])]%Z)
    (mkWorld (Some {[5]}%Z) [] false [])
  = (ROk tt, mkWorld (Some {[1; 2; 5]}%Z) ["a"] false
       [EvCompileMinimize; EvLoadGF; EvMerge; EvCopy ["a"];
        EvWriteGF {[1; 2; 5]}%Z; EvRemoveControl; EvLogUpdate]))
    by (vm_compute; reflexivity).
  split; [exact Hrun|].
  exact (proj1 (proj2 evolve_corpus_monotone) _ _ _ Hrun).
Defined.

(** C6: the effects of every run of [evolve_corpus] are a prefix of
    compile, load, merge, copy of the interesting files into the shared
    corpus, write of the feature file, removal of the control file, time
    log: the feature file is written only after the copy completed and the
    control file is removed only after that write; a successful run does
    all seven in this order. *)
Theorem evolve_corpus_effect_order (env : EvolveEnv) (w : World) :
  let '(r, w') := evolve_corpus env w in
  exists k,
    events w' = events w ++ take k (full_run_events env w) /\
    (r = ROk tt -> events w' = events w ++ full_run_events env w).
Proof.
  pose proof (evolve_corpus_cases env w) as H.
  destruct (scan_corpora _ _ _) as [gf1 ints].
  destruct (evolve_corpus env w) as [r w'].
  destruct H as (k & _ & Hev & _ & _ & Hk).
  exists k. split; [exact Hev|].
  intros Hr. rewrite Hev, (Hk Hr). f_equal.
  unfold full_run_events. destruct (scan_corpora _ _ _). reflexivity.
Qed.

Lemma evolve_corpus_effect_order_witness :
  exists k,
    events (snd (evolve_corpus (mkEnv (fun o => match o with OWrite => true | _ => false end)
                                   ∅ true [("a", [1])]%Z) (mkWorld None [] false [])))
    = take k [EvCompileMinimize; EvInitGF; EvMerge; EvCopy ["a"];
              EvWriteGF {[1]}%Z; EvRemoveControl; EvLogUpdate].
Proof.
  pose proof (evolve_corpus_effect_order
                (mkEnv (fun o => match o with OWrite => true | _ => false end)
                   ∅ true [("a", [1])]%Z) (mkWorld None [] false [])) as H.
  destruct (evolve_corpus _ _) as [r w'] eqn:E.
  destruct H as [k [Hk _]]. exists k. cbn [snd]. rewrite Hk. vm_compute. reflexivity.
Defined.

End EvolveProofs.

Module CoverageProofs.
Import CoverageStage.

(** C7 (counterexample): with a driver that fails the coverage predicate,
    the stage still invokes [evolve_corpus] and removes [corpus/], and then
    returns a [Coverage] verdict. *)
Lemma coverage_stage_evolves_on_failure :
  exists msg evs,
    is_program_coverage_correct (mkCovEnv (fun _ => false) true "summary") []
    = (ROk (Some (Coverage msg)), evs) /\
    In EvEvolve evs /\ In EvRemoveCorpus evs.
Proof.
  eexists _, _. split; [vm_compute; reflexivity|].
  split; cbn; tauto.
Qed.

(** C7 (amended): whenever the coverage stage returns a verdict, it has
    compiled, collected coverage, evaluated the predicate, logged its time,
    invoked [evolve_corpus] and removed [corpus/], in this order, whatever
    the predicate's result; the verdict is [None] exactly when the
    predicate reports no error, and a [Coverage] error otherwise. *)
Theorem coverage_stage_evolves_before_verdict (env : CovEnv)
    (v : option ProgramError) (evs : list CovEvent) :
  is_program_coverage_correct env [] = (ROk v, evs) ->
  take 6 evs = [EvCompileCoverage; EvCollect; EvSanitize; EvTimeLog; EvEvolve; EvRemoveCorpus] /\
  (v = None <-> cov_has_err env = false) /\
  (cov_has_err env = true -> exists msg, v = Some (Coverage msg)).
Proof.
  unfold is_program_coverage_correct, cov_call, mbind, st_bind, mret, st_ret.
  destruct (cov_fails env OCompileCov); [discriminate|].
  destruct (cov_fails env OCollect); [discriminate|].
  destruct (cov_fails env OSanitize); [discriminate|].
  destruct (cov_fails env OTimeLog); [discriminate|].
  destruct (cov_fails env OEvolve); [discriminate|].
  destruct (cov_fails env ORemoveCorpus); [discriminate|].
  destruct (cov_has_err env); cbn.
  - destruct (cov_fails env ODump); [discriminate|].
    intros H; injection H as <- <-. cbn.
    split; [reflexivity|]. split; [split; discriminate|]. intros _; eauto.
  - intros H; injection H as <- <-.
    split; [reflexivity|]. split; [tauto|]. discriminate.
Qed.

Lemma coverage_stage_evolves_before_verdict_witness :
  exists v evs,
    is_program_coverage_correct (mkCovEnv (fun _ => false) false "") [] = (ROk v, evs) /\
    take 6 evs = [EvCompileCoverage; EvCollect; EvSanitize; EvTimeLog; EvEvolve; EvRemoveCorpus] /\
    v = None.
Proof.
  assert (H : is_program_coverage_correct (mkCovEnv (fun _ => false) false "") []
              = (ROk None, [EvCompileCoverage; EvCollect; EvSanitize; EvTimeLog;
                            EvEvolve; EvRemoveCorpus])) by reflexivity.
  exists None, [EvCompileCoverage; EvCollect; EvSanitize; EvTimeLog; EvEvolve; EvRemoveCorpus].
  split; [exact H|].
  destruct (coverage_stage_evolves_before_verdict _ _ _ H) as (Ht & Hv & _).
  split; [exact Ht | apply Hv; reflexivity].
Defined.

End CoverageProofs.

Module ConfigProofs.
Import Config.

(** C8 (counterexample): neither flag list of [config.rs] is both the
    spec's bit-exact Fuzzer list and a list holding
    [-fsanitize-trap=undefined] and [-fno-sanitize-recover=undefined]. *)
Lemma fuzzer_profile_not_both :
  ~ (FUZZER_FLAGS = spec_fuzzer_profile /\
     In "-fsanitize-trap=undefined" FUZZER_FLAGS /\
     In "-fno-sanitize-recover=undefined" FUZZER_FLAGS) /\
  ~ (SANITIZER_FLAGS = spec_fuzzer_profile /\
     In "-fsanitize-trap=undefined" SANITIZER_FLAGS /\
     In "-fno-sanitize-recover=undefined" SANITIZER_FLAGS).
Proof.
  split.
  - intros (_ & Htrap & _). cbn in Htrap.
    repeat destruct Htrap as [Htrap|Htrap]; try discriminate Htrap; exact Htrap.
  - intros (Heq & _). discriminate Heq.
Qed.

(** C8 (amended): [FUZZER_FLAGS] is bit-exact the spec's Fuzzer list and
    holds neither UB-trap flag; [-fsanitize-trap=undefined] and
    [-fno-sanitize-recover=undefined] are in the separate
    [SANITIZER_FLAGS], which is [FUZZER_FLAGS] with [-g] and [-O1] swapped
    followed by the two trap flags. *)
Theorem fuzzer_flags_exact :
  FUZZER_FLAGS = spec_fuzzer_profile /\
  ~ In "-fsanitize-trap=undefined" FUZZER_FLAGS /\
  ~ In "-fno-sanitize-recover=undefined" FUZZER_FLAGS /\
  SANITIZER_FLAGS =
    ["-fsanitize=fuzzer"; "-g"; "-O1"] ++ drop 3 FUZZER_FLAGS ++
    ["-fsanitize-trap=undefined"; "-fno-sanitize-recover=undefined"].
Proof.
  split; [reflexivity|].
  split; [|split; [|reflexivity]];
    intros H; cbn in H; repeat destruct H as [H|H]; try discriminate H; exact H.
Qed.

End ConfigProofs.

Module WrapperProofs.
Import Wrapper.

Lemma is_prefix_app (p t : str) : is_prefix p (p ++ t) = true.
Proof.
  induction p as [|a p IH]; [reflexivity|].
  cbn. destruct (ascii_dec a a); [exact IH | contradiction].
Qed.

Lemma is_prefix_app_l (p q r : str) : is_prefix (p ++ q) (p ++ r) = is_prefix q r.
Proof.
  induction p as [|a p IH]; [reflexivity|].
  cbn. destruct (ascii_dec a a); [exact IH | contradiction].
Qed.

Lemma is_prefix_app_inv (p q l : str) : is_prefix (p ++ q) l = true -> is_prefix p l = true.
Proof.
  revert l; induction p as [|a p IH]; intros l H; [reflexivity|].
  destruct l as [|b l]; [discriminate H|].
  cbn in *. destruct (ascii_dec a b); [exact (IH l H) | discriminate H].
Qed.

Lemma is_prefix_shorter (p x y : str) :
  is_prefix p (x ++ y) = true -> length p <= length x -> is_prefix p x = true.
Proof.
  revert x; induction p as [|a p IH]; intros x H Hlen; [reflexivity|].
  destruct x as [|b x]; [cbn in Hlen; lia|].
  cbn in *. destruct (ascii_dec a b); [apply IH; [exact H | lia] | discriminate H].
Qed.

Lemma rfind_from_no_fence (l : str) (i : nat) :
  has_fence l = false -> rfind_from fence l i = None.
Proof.
  revert i; induction l as [|c l IH]; intros i H; [reflexivity|].
  cbn [has_fence] in H. apply orb_false_iff in H as [Hp Hl].
  cbn [rfind_from]. rewrite (IH (S i) Hl), Hp. reflexivity.
Qed.

Lemma rfind_from_cons (pat : str) (c : ascii) (l : str) (i : nat) :
  rfind_from pat (c :: l) i
  = match rfind_from pat l (S i) with
    | Some j => Some j
    | None => if is_prefix pat (c :: l) then Some i else None
    end.
Proof. reflexivity. Qed.

Lemma rfind_from_last (body post : str) (i : nat) :
  has_fence (bt :: bt :: post) = false ->
  rfind_from fence (body ++ fence ++ post) i = Some (i + length body).
Proof.
  intros Hpost. revert i; induction body as [|c body IH]; intros i.
  - cbn [app]. change (fence ++ post) with (bt :: (bt :: bt :: post)).
    rewrite rfind_from_cons, (rfind_from_no_fence _ (S i) Hpost).
    rewrite Nat.add_0_r. change (bt :: bt :: bt :: post) with (fence ++ post).
    rewrite is_prefix_app. reflexivity.
  - cbn [app]. rewrite rfind_from_cons, IH. f_equal. cbn. lia.
Qed.

Lemma find_from_eq (pat l : str) (i : nat) :
  find_from pat l i
  = if is_prefix pat l then Some i
    else match l with [] => None | _ :: l' => find_from pat l' (S i) end.
Proof. destruct l; reflexivity. Qed.

Lemma find_from_first (pre r : str) (i : nat) :
  has_fence (pre ++ [bt; bt]) = false ->
  find_from fence (pre ++ fence ++ r) i = Some (i + length pre).
Proof.
  revert i; induction pre as [|c pre IH]; intros i Hpre.
  - cbn [app]. rewrite find_from_eq, is_prefix_app, Nat.add_0_r. reflexivity.
  - cbn [has_fence] in Hpre. apply orb_false_iff in Hpre as [Hp Hl].
    cbn [app]. rewrite find_from_eq.
    destruct (is_prefix fence (c :: pre ++ fence ++ r)) eqn:Hf.
    + exfalso.
      assert (Hs : c :: pre ++ fence ++ r = (c :: pre ++ [bt; bt]) ++ bt :: r)
        by (cbn; rewrite <- app_assoc; reflexivity).
      rewrite Hs in Hf. apply is_prefix_shorter in Hf;
        [| cbn; rewrite length_app; cbn; lia].
      change (is_prefix fence (c :: pre ++ [bt; bt]) = false) in Hp. congruence.
    + rewrite (IH (S i) Hl). f_equal. cbn. lia.
Qed.

Lemma strip_code_prefix_noop (r pat : str) :
  is_prefix fence r = false -> strip_code_prefix r pat = r.
Proof.
  intros Hr. unfold strip_code_prefix.
  destruct (is_prefix (fence ++ pat) r) eqn:H; [|reflexivity].
  apply is_prefix_app_inv in H. congruence.
Qed.

Lemma strip_tags_noop (ts : list str) (r : str) :
  is_prefix fence r = false -> fold_left strip_code_prefix ts r = r.
Proof.
  revert r; induction ts as [|t ts IH]; intros r Hr; [reflexivity|].
  cbn. rewrite strip_code_prefix_noop by exact Hr. exact (IH r Hr).
Qed.

Lemma strip_tags_first (ts : list str) (tag rest : str) :
  first_prefix ts (tag ++ rest) = Some tag ->
  is_prefix fence rest = false ->
  fold_left strip_code_prefix ts (fence ++ tag ++ rest) = rest.
Proof.
  revert tag; induction ts as [|t ts IH]; intros tag Hfirst Hrest; [discriminate Hfirst|].
  cbn [first_prefix fold_left] in *.
  destruct (is_prefix t (tag ++ rest)) eqn:Ht.
  - injection Hfirst as ->.
    unfold strip_code_prefix, strip_prefix.
    rewrite app_assoc, is_prefix_app, drop_app_length.
    exact (strip_tags_noop ts rest Hrest).
  - assert (Hnoop : strip_code_prefix (fence ++ tag ++ rest) t = fence ++ tag ++ rest).
    { unfold strip_code_prefix. rewrite is_prefix_app_l, Ht. reflexivity. }
    rewrite Hnoop. exact (IH tag Hfirst Hrest).
Qed.

Lemma strip_code_prefix_chain (x : str) :
  strip_code_prefix (strip_code_prefix (strip_code_prefix (strip_code_prefix
    (strip_code_prefix (strip_code_prefix (strip_code_prefix x (s "cpp")) (s "CPP"))
    (s "C++")) (s "c++")) (s "c")) (s "C")) [nl]
  = fold_left strip_code_prefix code_tags x.
Proof. reflexivity. Qed.

(** C9 (counterexample): the input is trimmed first, so whitespace before
    the text that precedes the first fence is not part of the comment. *)
Lemma strip_code_wrapper_trims_prefix :
  strip_code_wrapper (s " a" ++ fence ++ [nl] ++ s "x" ++ fence) = s "/*a*/" ++ [nl] ++ s "x" /\
  strip_code_wrapper (s " a" ++ fence ++ [nl] ++ s "x" ++ fence) <> s "/* a*/" ++ [nl] ++ s "x".
Proof. split; [vm_compute; reflexivity | vm_compute; discriminate]. Qed.

(** C9 (amended): let [pre] be the text of the trimmed input before its
    first [```], followed by one of the tags cpp, CPP, C++, c++, c, C or a
    newline (the first of them, in this order, that matches), such that
    the text after the tag does not itself start with [```]; then
    [strip_code_wrapper] returns ["/*" ++ pre ++ "*/\n"] followed by the
    text between the tag and the last [```]. *)
Theorem strip_code_wrapper_fenced (input pre tag body post : str) :
  trim input = pre ++ fence ++ tag ++ body ++ fence ++ post ->
  has_fence (pre ++ [bt; bt]) = false ->
  first_prefix code_tags (tag ++ body ++ fence ++ post) = Some tag ->
  is_prefix fence (body ++ fence ++ post) = false ->
  has_fence (bt :: bt :: post) = false ->
  strip_code_wrapper input = s "/*" ++ pre ++ s "*/" ++ [nl] ++ body.
Proof.
  intros Htrim Hpre Htag Hnofence Hpost.
  unfold strip_code_wrapper. cbv zeta. rewrite Htrim.
  unfold find. rewrite (find_from_first pre _ 0 Hpre). cbn [Nat.add].
  rewrite take_app_length, drop_app_length.
  cbv beta iota.
  rewrite strip_code_prefix_chain, (strip_tags_first code_tags tag _ Htag Hnofence).
  unfold rfind. rewrite (rfind_from_last body post 0 Hpost). cbn [Nat.add].
  rewrite take_app_length. reflexivity.
Qed.

Lemma strip_code_wrapper_fenced_witness :
  strip_code_wrapper (s "note" ++ fence ++ s "cpp" ++ [nl] ++ s "int x;" ++ [nl] ++ fence)
  = s "/*" ++ s "note" ++ s "*/" ++ [nl] ++ ([nl] ++ s "int x;" ++ [nl]).
Proof.
  apply (strip_code_wrapper_fenced _ (s "note") (s "cpp") ([nl] ++ s "int x;" ++ [nl]) []);
    vm_compute; reflexivity.
Defined.

End WrapperProofs.

Module InfillProofs.
Import Infill.

(** C10: on an [Infill] prompt, [infill] returns the stop sequence made
    of the first 10 bytes of the suffix when the suffix has at least 10
    bytes and byte 10 (if any) is not a UTF-8 continuation byte; on every
    other suffix it panics. *)
Theorem infill_requires_boundary_at_10 (prefix suffix : bytes) :
  (10 <= length suffix /\
   (forall b, suffix !! 10 = Some b -> ~ (128 <= Byte.to_nat b < 192)) ->
   infill (InfillKind prefix suffix) = ROk (Some (take 10 suffix))) /\
  (~ (10 <= length suffix /\
      (forall b, suffix !! 10 = Some b -> ~ (128 <= Byte.to_nat b < 192))) ->
   exists msg, infill (InfillKind prefix suffix) = RPanic msg).
Proof.
  unfold infill, slice_to, is_char_boundary.
  replace (10 =? 0) with false by reflexivity. cbv iota.
  destruct (suffix !! 10) as [b|] eqn:Hb.
  - assert (Hlen : 10 < length suffix) by (apply lookup_lt_is_Some_1; eauto).
    destruct (Nat.leb_spec 128 (Byte.to_nat b)), (Nat.ltb_spec (Byte.to_nat b) 192); cbn.
    + split.
      * intros [_ Hnc]. exfalso. apply (Hnc b eq_refl). lia.
      * intros _. eauto.
    + split; [reflexivity|]. intros Hn; exfalso; apply Hn; split; [lia|].
      intros b' Hb'. injection Hb' as <-. lia.
    + split; [reflexivity|]. intros Hn; exfalso; apply Hn; split; [lia|].
      intros b' Hb'. injection Hb' as <-. lia.
    + split; [reflexivity|]. intros Hn; exfalso; apply Hn; split; [lia|].
      intros b' Hb'. injection Hb' as <-. lia.
  - apply lookup_ge_None in Hb.
    destruct (Nat.eqb_spec 10 (length suffix)) as [Heq|Hne]; cbv iota.
    + split; [reflexivity|]. intros Hn; exfalso; apply Hn; split; [lia|].
      intros b' Hb'; discriminate Hb'.
    + split.
      * intros [Hl _]. lia.
      * intros _. eauto.
Qed.

Lemma infill_requires_boundary_at_10_witness :
  infill (InfillKind [] (repeat Byte.x61 10)) = ROk (Some (repeat Byte.x61 10)) /\
  (exists msg, infill (InfillKind [] (repeat Byte.x61 9)) = RPanic msg) /\
  (exists msg, infill (InfillKind [] (repeat Byte.x61 9 ++ [Byte.xc3; Byte.xa9]))
               = RPanic msg).
Proof.
  split; [|split].
  - apply (proj1 (infill_requires_boundary_at_10 [] (repeat Byte.x61 10))).
    split; [cbn; lia | intros b Hb; discriminate Hb].
  - apply (proj2 (infill_requires_boundary_at_10 [] (repeat Byte.x61 9))).
    intros [Hl _]. cbn in Hl. lia.
  - apply (proj2 (infill_requires_boundary_at_10 [] (repeat Byte.x61 9 ++ [Byte.xc3; Byte.xa9]))).
    intros [_ Hnc]. apply (Hnc Byte.xa9 eq_refl). cbn. lia.
Defined.

End InfillProofs.

Module BatchEdgeProofs.
Import Batch BatchProofs.

(** X1: with [core = 0], [concurrent_check] returns no verdicts for no
    programs, and panics (remainder by zero) as soon as there is one. *)
Theorem concurrent_check_zero_cores
    (child_output : string -> bool * string)
    (decode_error : string -> option ProgramError) :
  concurrent_check child_output decode_error [] 0 = ROk [] /\
  forall p ps, exists msg, concurrent_check child_output decode_error (p :: ps) 0 = RPanic msg.
Proof.
  split; [reflexivity|].
  intros p ps. unfold concurrent_check. cbn. eauto.
Qed.

(** X2: one call of [concurrent_check_batch] spawns and waits for only the
    first [core] programs of its batch: its verdicts are those of
    [take core programs], in order, and the rest gets none. *)
Theorem concurrent_check_batch_truncates
    (child_output : string -> bool * string)
    (decode_error : string -> option ProgramError) (programs : list string) (core : nat) :
  concurrent_check_batch child_output decode_error programs core
  = ROk (map (worker_verdict child_output decode_error) (take core programs)).
Proof.
  unfold concurrent_check_batch.
  rewrite spawn_children_take, drop_0.
  rewrite wait_children_map by (rewrite length_map, length_take; lia).
  rewrite map_map. reflexivity.
Qed.

End BatchEdgeProofs.

Module CleanupEdgeProofs.
Import Cleanup CleanupProofs.
Lemma cleanup_loop_missing (res : list (option ProgramError)) (i : nat)
    (paths : list nat) (fs : FS) (id m : nat) :
  i + length res <= length paths ->
  m < length res -> paths !! (i + m) = Some id -> fs !! id = None ->
  exists e, fst (cleanup_loop i res paths fs) = RErr e.
Proof.
  revert i m fs; induction res as [|has_err res IH]; intros i m fs Hlen Hm Hid Hx;
    [cbn in Hm; lia|].
  cbn [cleanup_loop]; unfold_st.
  cbn [length] in Hlen.
  destruct (lookup_lt_is_Some_2 paths i ltac:(lia)) as [dir Hdir]. rewrite Hdir.
  unfold cleanup_sanitize_dir.
  destruct (fs !! dir) as [files|] eqn:Hfd; [|cbn; eauto].
  destruct m as [|m].
  - rewrite Nat.add_0_r, Hdir in Hid. injection Hid as ->. congruence.
  - rewrite <- Nat.add_succ_comm in Hid. cbn [length] in Hm.
    assert (Hne : dir <> id) by (intros ->; congruence).
    assert (Hx1 : <[dir := List.filter entry_kept files]> fs !! id = None)
      by (rewrite lookup_insert_ne; [exact Hx | congruence]).
    destruct has_err as [[]|]; try (eapply IH; [lia | exact (proj2 (Nat.succ_lt_mono _ _) Hm) | exact Hid | exact Hx1]);
      (unfold remove_dir_all; rewrite lookup_insert_eq; cbn;
       eapply IH; [lia | exact (proj2 (Nat.succ_lt_mono _ _) Hm) | exact Hid |
                   rewrite lookup_delete_ne; [exact Hx1 | congruence]]).
Qed.

Lemma cleanup_loop_duplicate (res : list (option ProgramError)) (i : nat)
    (paths : list nat) (fs : FS) (id m1 m2 : nat) (v : option ProgramError) :
  i + length res <= length paths ->
  m1 < m2 < length res ->
  paths !! (i + m1) = Some id -> paths !! (i + m2) = Some id ->
  res !! m1 = Some v -> keeps_workdir v = false ->
  exists e, fst (cleanup_loop i res paths fs) = RErr e.
Proof.
  revert i m1 m2 fs; induction res as [|has_err res IH]; intros i m1 m2 fs Hlen Hm H1 H2 Hv Hk;
    [cbn in Hm; lia|].
  cbn [cleanup_loop]; unfold_st.
  cbn [length] in Hlen, Hm.
  destruct (lookup_lt_is_Some_2 paths i ltac:(lia)) as [dir Hdir]. rewrite Hdir.
  unfold cleanup_sanitize_dir.
  destruct (fs !! dir) as [files|] eqn:Hfd; [|cbn; eauto].
  destruct m1 as [|m1].
  - rewrite Nat.add_0_r, Hdir in H1. injection H1 as ->.
    cbn in Hv. injection Hv as ->.
    destruct m2 as [|m2]; [lia|].
    rewrite <- Nat.add_succ_comm in H2.
    destruct v as [[]|]; cbn in Hk; try discriminate Hk;
      (unfold remove_dir_all; rewrite lookup_insert_eq; cbn;
       eapply cleanup_loop_missing; [lia | exact (proj2 (Nat.succ_lt_mono m2 _) (proj2 Hm)) | exact H2 |
                                     apply lookup_delete_eq]).
  - destruct m2 as [|m2]; [lia|].
    rewrite <- Nat.add_succ_comm in H1, H2. cbn in Hv.
    assert (Hm' : m1 < m2 < length res) by lia.
    destruct has_err as [[]|]; try (eapply IH; [lia | exact Hm' | exact H1 | exact H2 | exact Hv | exact Hk]);
      (unfold remove_dir_all; rewrite lookup_insert_eq; cbn;
       eapply IH; [lia | exact Hm' | exact H1 | exact H2 | exact Hv | exact Hk]).
Qed.

Lemma write_seeds_ok (ids : list nat) (fs : FS) : fst (write_seeds ids fs) = ROk tt.
Proof.
  revert fs; induction ids as [|id ids IH]; intros fs; [reflexivity|].
  cbn. unfold_st. unfold write_seed. apply IH.
Qed.

(** X5: when an id occurs twice in the batch and its verdict makes the
    first cleanup remove its WorkDir, the second cleanup of that
    WorkDir fails ([read_sort_dir] on a missing directory), so
    [check_programs_are_correct] returns an error. *)
Theorem check_programs_are_correct_duplicate_id
    (child_output : string -> bool * string)
    (decode_error : string -> option ProgramError)
    (seed_path : nat -> string) (cores : nat)
    (worker_effect : nat -> list Entry -> list Entry)
    (print_san_cost : list nat -> FS -> Res unit)
    (ids : list nat) (fs0 : FS) (i j id : nat) :
  1 <= cores ->
  (forall fs, print_san_cost ids fs = ROk tt) ->
  i < j -> ids !! i = Some id -> ids !! j = Some id ->
  keeps_workdir (Batch.worker_verdict child_output decode_error (seed_path id)) = false ->
  exists msg fs1,
    check_programs_are_correct child_output decode_error seed_path cores
      worker_effect print_san_cost ids fs0 = (RErr msg, fs1).
Proof.
  intros Hc Hp Hij Hi Hj Hk.
  unfold check_programs_are_correct, run_workers, lift_res; unfold_st.
  pose proof (write_seeds_ok ids fs0) as Hw.
  destruct (write_seeds ids fs0) as [r2 fs2]; cbn in Hw; subst r2.
  assert (Hcc : Batch.concurrent_check child_output decode_error (map seed_path ids) cores
                = ROk (map (Batch.worker_verdict child_output decode_error) (map seed_path ids))).
  { unfold Batch.concurrent_check.
    rewrite BatchProofs.concurrent_check_loop_map; cbn; auto; try lia.
    symmetry; apply Nat.Div0.mod_0_l. }
  rewrite Hcc, Hp.
  set (res := map (Batch.worker_verdict child_output decode_error) (map seed_path ids)).
  set (fs3 := foldr (fun id m => alter (worker_effect id) id m) fs2 ids).
  pose proof (cleanup_loop_duplicate res 0 ids fs3 id i j
                (Batch.worker_verdict child_output decode_error (seed_path id))) as Hd.
  assert (Hlen : length res = length ids) by (unfold res; rewrite !length_map; reflexivity).
  pose proof (lookup_lt_Some _ _ _ Hj) as Hjl.
  destruct (Hd ltac:(lia) ltac:(lia) Hi Hj
              ltac:(unfold res; rewrite list_lookup_fmap, list_lookup_fmap, Hi; reflexivity) Hk)
    as [e He].
  destruct (cleanup_loop 0 res ids fs3) as [r fs4]. cbn in He. subst r. eauto.
Qed.

Lemma check_programs_are_correct_duplicate_id_witness :
  exists msg fs1,
    check_programs_are_correct (fun _ => (false, ""%string)) (fun _ => Some (Syntax "e"))
      (fun _ => "seed"%string) 2 (fun _ l => l) (fun _ _ => ROk tt) [1; 1] ∅
    = (RErr msg, fs1).
Proof.
  apply (check_programs_are_correct_duplicate_id _ _ _ 2 _ _ [1; 1] ∅ 0 1 1);
    [lia | intros _; reflexivity | lia | reflexivity | reflexivity | reflexivity].
Defined.
End CleanupEdgeProofs.

Module SanCostProofs.
Import SanCost.

Section Lemmas.
Variable f32 : Type.
Variable f32_zero : f32.
Variable f32_add : f32 -> f32 -> f32.
Variable f32_gt : f32 -> f32 -> bool.
Variable load : nat -> string -> Res f32.

Lemma program_cost_six (p : nat) (c : f32 * list f32) :
  program_cost f32 f32_add load p = ROk c -> length (snd c) = 6.
Proof.
  unfold program_cost, mbind, res_bind, mret, res_ret.
  repeat match goal with |- context [load p ?st] => destruct (load p st); try discriminate end.
  intros H; injection H as <-. reflexivity.
Qed.

Lemma san_cost_loop_full (paths : list nat) (m : f32) (u : list f32) :
  length u = 6 ->
  (forall p, In p paths -> exists c, program_cost f32 f32_add load p = ROk c) ->
  exists m' u', san_cost_loop f32 f32_add f32_gt load paths m u = ROk (m', u') /\ length u' = 6.
Proof.
  revert m u; induction paths as [|p paths IH]; intros m u Hu Hok; [eauto|].
  cbn [san_cost_loop]. destruct (Hok p (or_introl eq_refl)) as [[t ts] Hc].
  rewrite Hc. cbn. pose proof (program_cost_six p _ Hc) as H6; cbn in H6.
  destruct (f32_gt t m); apply IH; auto; intros q Hq; apply Hok; right; exact Hq.
Qed.

Lemma san_cost_loop_zero (paths : list nat) :
  (forall p, In p paths -> exists c, program_cost f32 f32_add load p = ROk c) ->
  exists m' u', san_cost_loop f32 f32_add f32_gt load paths f32_zero [] = ROk (m', u') /\
    ((u' = [] /\ forall p c, In p paths -> program_cost f32 f32_add load p = ROk c ->
                   f32_gt (fst c) f32_zero = false) \/
     (length u' = 6 /\ exists p c, In p paths /\ program_cost f32 f32_add load p = ROk c /\
                   f32_gt (fst c) f32_zero = true)).
Proof.
  induction paths as [|p paths IH]; intros Hok.
  - exists f32_zero, []. split; [reflexivity|]. left. split; [reflexivity|]. intros ? ? [].
  - cbn [san_cost_loop]. destruct (Hok p (or_introl eq_refl)) as [[t ts] Hc].
    rewrite Hc. cbn.
    destruct (f32_gt t f32_zero) eqn:Hgt.
    + destruct (san_cost_loop_full paths t ts (program_cost_six p _ Hc)
                  (fun q Hq => Hok q (or_intror Hq))) as (m' & u' & Hl & H6).
      exists m', u'. split; [exact Hl|]. right. split; [exact H6|].
      exists p, (t, ts). split; [left; reflexivity|]. split; [exact Hc | exact Hgt].
    + destruct (IH (fun q Hq => Hok q (or_intror Hq))) as (m' & u' & Hl & Hcase).
      exists m', u'. split; [exact Hl|].
      destruct Hcase as [[-> Hall] | [H6 (q & c & Hq & Hqc & Hqg)]].
      * left. split; [reflexivity|]. intros q c [<-|Hq] Hqc.
        -- rewrite Hc in Hqc. injection Hqc as <-. exact Hgt.
        -- exact (Hall q c Hq Hqc).
      * right. split; [exact H6|]. exists q, c. split; [right; exact Hq|]. auto.
Qed.
End Lemmas.

(** X3: when every program's six cost logs load, [print_san_cost] panics
    (it indexes [usage[0]] of an empty [usage]) exactly when no program
    has a total cost above [0]. *)
Theorem print_san_cost_panics_without_positive_total
    (f32 : Type) (f32_zero : f32) (f32_add : f32 -> f32 -> f32)
    (f32_gt : f32 -> f32 -> bool) (load : nat -> string -> Res f32)
    (program_paths : list nat) (gtl : list (list f32)) :
  (forall p, In p program_paths -> exists c, program_cost f32 f32_add load p = ROk c) ->
  ((exists msg, fst (print_san_cost f32 f32_zero f32_add f32_gt load program_paths gtl)
                = RPanic msg) <->
   (forall p c, In p program_paths -> program_cost f32 f32_add load p = ROk c ->
      f32_gt (fst c) f32_zero = false)).
Proof.
  intros Hok. unfold print_san_cost.
  destruct (san_cost_loop_zero f32 f32_zero f32_add f32_gt load program_paths Hok)
    as (m' & u' & Hl & Hcase).
  rewrite Hl.
  destruct Hcase as [[-> Hall] | [H6 (q & c & Hq & Hqc & Hqg)]].
  - cbn. split; [intros _; exact Hall | eauto].
  - destruct u' as [|u0 [|u1 [|u2 [|u3 [|u4 [|u5 [|]]]]]]]; cbn in H6; try lia. cbn.
    split; [intros [msg Hm]; discriminate Hm|].
    intros Hall. rewrite (Hall q c Hq Hqc) in Hqg. discriminate Hqg.
Qed.

(** X4: [check_programs_are_correct] on an empty batch reaches
    [print_san_cost] with no program and panics, leaving the WorkDirs as
    they were. *)
Theorem check_programs_are_correct_empty_panics
    (child_output : string -> bool * string)
    (decode_error : string -> option ProgramError)
    (seed_path : nat -> string) (cores : nat)
    (worker_effect : nat -> list Cleanup.Entry -> list Cleanup.Entry)
    (f32 : Type) (f32_zero : f32) (f32_add : f32 -> f32 -> f32)
    (f32_gt : f32 -> f32 -> bool) (load : nat -> string -> Res f32)
    (fs : Cleanup.FS) :
  exists msg,
    Cleanup.check_programs_are_correct child_output decode_error seed_path cores worker_effect
      (fun ids _ => fst (print_san_cost f32 f32_zero f32_add f32_gt load ids [])) [] fs
    = (RPanic msg, fs).
Proof. eexists. reflexivity. Qed.

Lemma print_san_cost_panics_without_positive_total_witness :
  (exists msg, fst (print_san_cost nat 0 Nat.add (fun a b => Nat.ltb b a)
                      (fun _ _ => ROk 0) [1; 2] []) = RPanic msg) /\
  ~ (exists msg, fst (print_san_cost nat 0 Nat.add (fun a b => Nat.ltb b a)
                      (fun p _ => ROk p) [0; 2] []) = RPanic msg).
Proof.
  split.
  - apply (print_san_cost_panics_without_positive_total nat 0 Nat.add (fun a b => Nat.ltb b a)
             (fun _ _ => ROk 0) [1; 2] []).
    + intros p _. eexists. reflexivity.
    + intros p c Hp Hc. destruct Hp as [<-|[<-|[]]]; injection Hc as <-; reflexivity.
  - rewrite (print_san_cost_panics_without_positive_total nat 0 Nat.add (fun a b => Nat.ltb b a)
             (fun p _ => ROk p) [0; 2] []).
    + intros Hall. discriminate (Hall 2 (12, [2; 2; 2; 2; 2; 2]) (or_intror (or_introl eq_refl))
                                   eq_refl).
    + intros p _. eexists. reflexivity.
Defined.
End SanCostProofs.

Module EvolveEdgeProofs.
Import Evolve EvolveProofs.

Lemma scan_corpora_features (corpora : list (string * list Feature))
    (gf : gset Feature) (acc : list string) :
  fst (scan_corpora corpora gf acc) = corpus_features corpora ∪ gf.
Proof.
  unfold corpus_features.
  revert gf acc; induction corpora as [|[file features] corpora IH]; intros gf acc.
  - cbn. set_solver.
  - cbn [scan_corpora]. rewrite insert_features_spec. cbn [fst].
    rewrite IH. cbn [map snd concat]. rewrite list_to_set_app_L. set_solver.
Qed.

Lemma interesting_files_none (corpora : list (string * list Feature)) (gf : gset Feature) :
  corpus_features corpora ⊆ gf -> interesting_files corpora gf = [].
Proof.
  unfold corpus_features.
  revert gf; induction corpora as [|[file features] corpora IH]; intros gf Hsub; [reflexivity|].
  cbn [interesting_files]. cbn [map snd concat] in Hsub. rewrite list_to_set_app_L in Hsub.
  replace (existsb _ features) with false.
  - cbn. apply IH. set_solver.
  - symmetry. apply not_true_iff_false. rewrite existsb_exists.
    intros (fe & Hin & Hn). apply negb_true_iff, bool_decide_eq_false in Hn.
    apply Hn, Hsub, elem_of_union_l, elem_of_list_to_set, list_elem_of_In, Hin.
Qed.

Lemma evolve_corpus_gf_union (env : EvolveEnv) (w w' : World) :
  evolve_corpus env w = (ROk tt, w') ->
  gf_file w' = Some (corpus_features (env_corpora env) ∪ loaded_features env w).
Proof.
  intros Hrun.
  pose proof (evolve_corpus_cases env w) as H.
  pose proof (scan_corpora_features (env_corpora env) (loaded_features env w) []) as Hf.
  destruct (scan_corpora _ _ _) as [gf1 ints]. cbn in Hf. subst gf1.
  rewrite Hrun in H. destruct H as (k & _ & _ & Hgf & _ & Hk).
  specialize (Hk eq_refl); subst k. exact Hgf.
Qed.

(** X7: when compilation, the feature load and the merge succeed but the
    merge wrote no control file, [evolve_corpus] panics after its first
    three effects, with the feature file and the shared corpus as they
    were. *)
Theorem evolve_corpus_missing_control_panics (env : EvolveEnv) (w : World) :
  env_fails env OCompile = false ->
  env_fails env (match gf_file w with Some _ => ORead | None => OInit end) = false ->
  env_fails env OMerge = false ->
  env_merge_writes_control env = false ->
  exists msg w', evolve_corpus env w = (RPanic msg, w') /\
    gf_file w' = gf_file w /\ shared_corpus w' = shared_corpus w /\
    events w' = events w ++ take 3 (full_run_events env w).
Proof.
  intros H1 H2 H3 H4.
  unfold evolve_corpus, load_global_features, call, mbind, st_bind, mret, st_ret, st_panic,
    full_run_events, loaded_features.
  destruct w as [g c b evs]; cbn [gf_file shared_corpus control_file events] in *.
  rewrite H1. destruct g; rewrite H2; cbn; rewrite H3, H4; cbn;
  destruct (scan_corpora _ _ _); cbn.
  all: do 2 eexists; split; [reflexivity|]; cbn; rewrite <- ?app_assoc; auto.
Qed.

Lemma evolve_corpus_missing_control_panics_witness :
  exists msg w',
    evolve_corpus (mkEnv (fun _ => false) ∅ false [("a", [1])]%Z) (mkWorld (Some {[5]}%Z) ["z"] false [])
    = (RPanic msg, w') /\
    gf_file w' = Some {[5]}%Z /\ shared_corpus w' = ["z"] /\
    events w' = [] ++ take 3 (full_run_events (mkEnv (fun _ => false) ∅ false [("a", [1])]%Z)
                                (mkWorld (Some {[5]}%Z) ["z"] false [])).
Proof.
  exact (evolve_corpus_missing_control_panics (mkEnv (fun _ => false) ∅ false [("a", [1])]%Z)
           (mkWorld (Some {[5]}%Z) ["z"] false []) eq_refl eq_refl eq_refl eq_refl).
Defined.

(** X8: a successful run of [evolve_corpus] writes to the feature file the
    loaded (or initialised) feature set together with every feature of
    every corpus file in the control file. *)
Theorem evolve_corpus_writes_union (env : EvolveEnv) (w w' : World) :
  evolve_corpus env w = (ROk tt, w') ->
  gf_file w' = Some (corpus_features (env_corpora env) ∪ loaded_features env w).
Proof. exact (evolve_corpus_gf_union env w w'). Qed.

Lemma evolve_corpus_writes_union_witness :
  evolve_corpus (mkEnv (fun _ => false) ∅ true [("a", [1; 2]); ("b", [3])]%Z)
    (mkWorld (Some {[5]}%Z) [] false [])
  = (ROk tt, mkWorld (Some {[1; 2; 3; 5]}%Z) ["a"; "b"] false
       [EvCompileMinimize; EvLoadGF; EvMerge; EvCopy ["a"; "b"];
        EvWriteGF {[1; 2; 3; 5]}%Z; EvRemoveControl; EvLogUpdate]) /\
  Some ({[1; 2; 3; 5]}%Z : gset Z)
  = Some (corpus_features [("a", [1; 2]); ("b", [3])]%Z ∪ {[5]}%Z).
Proof.
  assert (Hrun : evolve_corpus (mkEnv (fun _ => false) ∅ true [("a", [1; 2]); ("b", [3])]%Z)
    (mkWorld (Some {[5]}%Z) [] false [])
  = (ROk tt, mkWorld (Some {[1; 2; 3; 5]}%Z) ["a"; "b"] false
       [EvCompileMinimize; EvLoadGF; EvMerge; EvCopy ["a"; "b"];
        EvWriteGF {[1; 2; 3; 5]}%Z; EvRemoveControl; EvLogUpdate]))
    by (vm_compute; reflexivity).
  split; [exact Hrun|].
  exact (evolve_corpus_writes_union _ _ _ Hrun).
Defined.

(** X9: after a successful run, a second successful run over the same
    corpus files finds nothing new: it copies no file into the shared
    corpus and writes back the same feature set. *)
Theorem evolve_corpus_rerun_copies_nothing (env env' : EvolveEnv) (w w' w'' : World) :
  evolve_corpus env w = (ROk tt, w') ->
  env_corpora env' = env_corpora env ->
  evolve_corpus env' w' = (ROk tt, w'') ->
  shared_corpus w'' = shared_corpus w' /\ gf_file w'' = gf_file w' /\
  In (EvCopy []) (events w'').
Proof.
  intros H1 Hc H2.
  pose proof (evolve_corpus_gf_union env w w' H1) as Hgf1.
  pose proof (evolve_corpus_cases env' w') as H.
  pose proof (scan_corpora_features (env_corpora env') (loaded_features env' w') []) as Hf.
  pose proof (scan_corpora_interesting (env_corpora env') (loaded_features env' w') []) as Hi.
  assert (Hload : loaded_features env' w' = corpus_features (env_corpora env) ∪ loaded_features env w)
    by (unfold loaded_features; rewrite Hgf1; reflexivity).
  assert (Hnone : interesting_files (env_corpora env') (loaded_features env' w') = [])
    by (apply interesting_files_none; rewrite Hload, Hc; set_solver).
  unfold full_run_events in H.
  destruct (scan_corpora _ _ _) as [gf2 ints] eqn:Hs. cbn in Hf, Hi. rewrite Hnone in Hi.
  subst ints gf2.
  rewrite H2 in H. destruct H as (k & _ & Hev & Hgf & Hsh & Hk).
  specialize (Hk eq_refl); subst k.
  split; [rewrite Hsh; apply app_nil_r|]. split.
  - rewrite Hgf, Hgf1, Hload, Hc. f_equal. set_solver.
  - rewrite Hev. apply in_or_app. right. cbn. tauto.
Qed.

Lemma evolve_corpus_rerun_copies_nothing_witness :
  exists w' w'',
    evolve_corpus (mkEnv (fun _ => false) ∅ true [("a", [1; 2])]%Z) (mkWorld None [] false [])
    = (ROk tt, w') /\
    evolve_corpus (mkEnv (fun _ => false) {[9]}%Z true [("a", [1; 2])]%Z) w' = (ROk tt, w'') /\
    shared_corpus w'' = ["a"] /\ gf_file w'' = Some {[1; 2]}%Z /\ In (EvCopy []) (events w'').
Proof.
  assert (H1 : evolve_corpus (mkEnv (fun _ => false) ∅ true [("a", [1; 2])]%Z)
                 (mkWorld None [] false [])
    = (ROk tt, mkWorld (Some {[1; 2]}%Z) ["a"] false
         [EvCompileMinimize; EvInitGF; EvMerge; EvCopy ["a"];
          EvWriteGF {[1; 2]}%Z; EvRemoveControl; EvLogUpdate]))
    by (vm_compute; reflexivity).
  assert (H2 : evolve_corpus (mkEnv (fun _ => false) {[9]}%Z true [("a", [1; 2])]%Z)
                 (mkWorld (Some {[1; 2]}%Z) ["a"] false
                    [EvCompileMinimize; EvInitGF; EvMerge; EvCopy ["a"];
                     EvWriteGF {[1; 2]}%Z; EvRemoveControl; EvLogUpdate])
    = (ROk tt, mkWorld (Some {[1; 2]}%Z) ["a"] false
         [EvCompileMinimize; EvInitGF; EvMerge; EvCopy ["a"];
          EvWriteGF {[1; 2]}%Z; EvRemoveControl; EvLogUpdate;
          EvCompileMinimize; EvLoadGF; EvMerge; EvCopy [];
          EvWriteGF {[1; 2]}%Z; EvRemoveControl; EvLogUpdate]))
    by (vm_compute; reflexivity).
  do 2 eexists. split; [exact H1|]. split; [exact H2|].
  exact (evolve_corpus_rerun_copies_nothing _ _ _ _ _ H1 eq_refl H2).
Defined.
End EvolveEdgeProofs.

Module CoverageEdgeProofs.
Import CoverageStage.

(** X6: when any call up to [evolve_corpus] fails in
    [is_program_coverage_correct], the error is returned before the
    per-program corpus dir is removed and before the coverage dump. *)
Theorem coverage_stage_early_failure_keeps_corpus (env : CovEnv) :
  (exists o, In o [OCompileCov; OCollect; OSanitize; OTimeLog; OEvolve] /\ cov_fails env o = true) ->
  exists e evs, is_program_coverage_correct env [] = (RErr e, evs) /\
    ~ In EvRemoveCorpus evs /\ ~ In EvDump evs.
Proof.
  intros (o & Ho & Hf).
  unfold is_program_coverage_correct, cov_call, mbind, st_bind, mret, st_ret.
  destruct (cov_fails env OCompileCov) eqn:E1; [cbn; do 2 eexists; split; [reflexivity|]; cbn; intuition congruence|].
  destruct (cov_fails env OCollect) eqn:E2; [cbn; do 2 eexists; split; [reflexivity|]; cbn; intuition congruence|].
  destruct (cov_fails env OSanitize) eqn:E3; [cbn; do 2 eexists; split; [reflexivity|]; cbn; intuition congruence|].
  destruct (cov_fails env OTimeLog) eqn:E4; [cbn; do 2 eexists; split; [reflexivity|]; cbn; intuition congruence|].
  destruct (cov_fails env OEvolve) eqn:E5; [cbn; do 2 eexists; split; [reflexivity|]; cbn; intuition congruence|].
  exfalso. cbn in Ho. repeat destruct Ho as [<-|Ho]; try congruence.
Qed.

Lemma coverage_stage_early_failure_keeps_corpus_witness :
  exists e evs,
    is_program_coverage_correct
      (mkCovEnv (fun o => match o with OEvolve => true | _ => false end) true "dump"%string) []
    = (RErr e, evs) /\ ~ In EvRemoveCorpus evs /\ ~ In EvDump evs.
Proof.
  apply coverage_stage_early_failure_keeps_corpus.
  exists OEvolve. split; [cbn; tauto | reflexivity].
Defined.
End CoverageEdgeProofs.

Module WrapperEdgeProofs.
Import Wrapper WrapperProofs.

Lemma has_fence_prefix (l : str) :
  has_fence l = false -> is_prefix fence l = false.
Proof. destruct l; cbn; [reflexivity|]. intros H. apply orb_false_iff in H. apply H. Qed.

Lemma find_from_no_fence (l : str) (i : nat) :
  has_fence l = false -> find_from fence l i = None.
Proof.
  revert i; induction l as [|c l IH]; intros i H; [reflexivity|].
  cbn [has_fence] in H. apply orb_false_iff in H as [Hp Hl].
  rewrite find_from_eq, Hp. apply IH, Hl.
Qed.

Lemma has_fence_drop (k : nat) (l : str) :
  has_fence l = false -> has_fence (drop k l) = false.
Proof.
  revert l; induction k as [|k IH]; intros l H; [exact H|].
  destruct l as [|c l]; [reflexivity|].
  cbn [has_fence] in H. apply orb_false_iff in H as [_ Hl]. cbn. apply IH, Hl.
Qed.

Lemma is_prefix_take (p l : str) (k : nat) :
  is_prefix p (take k l) = true -> is_prefix p l = true.
Proof.
  revert l k; induction p as [|a p IH]; intros l k H; [reflexivity|].
  destruct l as [|b l]; [destruct k; discriminate H|].
  destruct k as [|k]; [discriminate H|].
  cbn in *. destruct (ascii_dec a b); [exact (IH l k H) | discriminate H].
Qed.

Lemma has_fence_take (k : nat) (l : str) :
  has_fence l = false -> has_fence (take k l) = false.
Proof.
  revert k; induction l as [|c l IH]; intros k H; [destruct k; reflexivity|].
  cbn [has_fence] in H. apply orb_false_iff in H as [Hp Hl].
  destruct k as [|k]; [reflexivity|].
  cbn [take has_fence]. apply orb_false_iff. split.
  - destruct (is_prefix fence (c :: take k l)) eqn:E; [|reflexivity].
    change (c :: take k l) with (take (S k) (c :: l)) in E.
    apply is_prefix_take in E. congruence.
  - apply IH, Hl.
Qed.

Lemma trim_start_fuel_drop (fuel : nat) (seqs : list str) (l : str) :
  exists k, trim_start_fuel fuel seqs l = drop k l.
Proof.
  revert l; induction fuel as [|fuel IH]; intros l; [exists 0; reflexivity|].
  cbn [trim_start_fuel]. destruct (first_prefix seqs l) as [p|]; [|exists 0; reflexivity].
  destruct (IH (drop (length p) l)) as [k Hk]. rewrite Hk, drop_drop. eauto.
Qed.

Lemma has_fence_app_l (x y : str) : has_fence (x ++ y) = false -> has_fence x = false.
Proof.
  intros H. replace x with (take (length x) (x ++ y)) by apply take_app_length.
  apply has_fence_take, H.
Qed.

Lemma has_fence_rev_drop_rev (k : nat) (l : str) :
  has_fence l = false -> has_fence (rev (drop k (rev l))) = false.
Proof.
  intros H.
  assert (Hl : l = rev (drop k (rev l)) ++ rev (take k (rev l)))
    by (rewrite <- rev_app_distr, take_drop, rev_involutive; reflexivity).
  rewrite Hl in H. exact (has_fence_app_l _ _ H).
Qed.

Lemma has_fence_trim (l : str) :
  has_fence l = false -> has_fence (trim l) = false.
Proof.
  intros H. unfold trim.
  destruct (trim_start_fuel_drop (length l) whitespace_seqs l) as [k1 Hk1]. rewrite Hk1.
  destruct (trim_start_fuel_drop (length (drop k1 l)) (map (@rev ascii) whitespace_seqs)
              (rev (drop k1 l))) as [k2 Hk2]. rewrite Hk2.
  apply has_fence_rev_drop_rev, has_fence_drop, H.
Qed.

(** X12: an answer without any backtick fence is only trimmed: the result
    is an empty comment, a newline and the trimmed answer. *)
Theorem strip_code_wrapper_no_fence (input : str) :
  has_fence input = false ->
  strip_code_wrapper input = s "/**/" ++ [nl] ++ trim input.
Proof.
  intros H. pose proof (has_fence_trim input H) as Ht.
  unfold strip_code_wrapper. cbv zeta.
  unfold find. rewrite (find_from_no_fence _ 0 Ht). cbv beta iota.
  rewrite strip_code_prefix_chain, (strip_tags_noop code_tags _ (has_fence_prefix _ Ht)).
  unfold rfind. rewrite (rfind_from_no_fence _ 0 Ht). reflexivity.
Qed.

Lemma strip_code_wrapper_no_fence_witness :
  strip_code_wrapper (s "  int x; " ++ [nl])
  = s "/**/" ++ [nl] ++ trim (s "  int x; " ++ [nl]) /\
  trim (s "  int x; " ++ [nl]) = s "int x;".
Proof.
  split; [apply strip_code_wrapper_no_fence; vm_compute; reflexivity | vm_compute; reflexivity].
Defined.
End WrapperEdgeProofs.

Module RequestProofs.
Import Request.

Section Lemmas.
Variable Response : Type.
Variable send : nat -> Response + string.
Variable is_critical_err : Response + string -> Critical.
Variable log_openai_usage : Response -> option string.
Variable request_debug : string.

Ltac stop_here s Hs :=
  exists 1; cbn [seq]; split; [reflexivity|]; split; [lia|]; split; [intros; lia|];
  split; [split; [split; [discriminate | intros H; specialize (H s ltac:(lia));
                                          rewrite ?Hs in H; congruence] | discriminate]|].

Lemma chat_loop_spec (n s : nat) (pre : list nat) :
  let '(r, sent) := get_chat_response_loop Response send is_critical_err log_openai_usage
                      request_debug (seq s n) pre in
  exists m, sent = pre ++ seq s m /\ m <= n /\
    (forall k, s <= k -> k + 1 < s + m -> is_critical_err (send k) = NonCritical) /\
    ((r = Failed (RetryError request_debug RETRY_N) <->
       forall k, s <= k < s + n -> is_critical_err (send k) = NonCritical) /\
     (r = Failed (RetryError request_debug RETRY_N) -> m = n)) /\
    (forall resp, r = Done resp ->
       1 <= m /\ send (s + m - 1) = inl resp /\ is_critical_err (send (s + m - 1)) = Normal /\
       log_openai_usage resp = None).
Proof.
  revert s pre; induction n as [|n IH]; intros s pre.
  - exists 0. cbn -[RETRY_N]. rewrite app_nil_r. split; [reflexivity|].
    split; [lia|]. split; [intros; lia|].
    split; [split; [split; [intros _ k Hk; lia | reflexivity] | reflexivity]|].
    intros resp H; discriminate H.
  - cbn [seq get_chat_response_loop].
    destruct (is_critical_err (send s)) eqn:Hc.
    + destruct (send s) as [resp|e] eqn:Hs.
      * destruct (log_openai_usage resp) eqn:Hl.
        -- stop_here s Hs. intros resp' H; discriminate H.
        -- stop_here s Hs. intros resp' H; injection H as <-.
           rewrite Nat.add_sub, Hs, Hc. auto.
      * stop_here s Hs. intros resp' H; discriminate H.
    + specialize (IH (S s) (pre ++ [s])).
      destruct (get_chat_response_loop _ _ _ _ _ (seq (S s) n) (pre ++ [s])) as [r sent].
      destruct IH as (m & Hsent & Hm & Hpre & [Hretry Hretry_m] & Hdone).
      exists (S m). split; [rewrite Hsent, <- app_assoc; reflexivity|].
      split; [lia|]. split.
      * intros k Hk1 Hk2. destruct (decide (k = s)) as [->|Hne]; [exact Hc|]. apply Hpre; lia.
      * split; [split; [split|]|].
        -- intros Hr k Hk. destruct (decide (k = s)) as [->|Hne]; [exact Hc|].
           apply (proj1 Hretry Hr). lia.
        -- intros H. apply Hretry. intros k Hk. apply H. lia.
        -- intros Hr. rewrite (Hretry_m Hr). reflexivity.
        -- intros resp Hr. destruct (Hdone resp Hr) as (H1 & H2 & H3 & H4).
           replace (s + S m - 1) with (S s + m - 1) by lia. auto with lia.
    + destruct (send s) as [resp|e] eqn:Hs;
        (stop_here s Hs; intros resp' H; discriminate H).
Qed.

Lemma complete_loop_spec (n s : nat) (pre : list nat) :
  let '(r, sent) := get_complete_response_loop Response send is_critical_err
                      request_debug (seq s n) pre in
  exists m, sent = pre ++ seq s m /\ m <= n /\
    (forall k, s <= k -> k + 1 < s + m -> is_critical_err (send k) = NonCritical) /\
    ((r = Failed (RetryError request_debug RETRY_N) <->
       forall k, s <= k < s + n -> is_critical_err (send k) = NonCritical) /\
     (r = Failed (RetryError request_debug RETRY_N) -> m = n)) /\
    (forall resp, r = Done resp ->
       1 <= m /\ send (s + m - 1) = inl resp /\ is_critical_err (send (s + m - 1)) = Normal).
Proof.
  revert s pre; induction n as [|n IH]; intros s pre.
  - exists 0. cbn -[RETRY_N]. rewrite app_nil_r. split; [reflexivity|].
    split; [lia|]. split; [intros; lia|].
    split; [split; [split; [intros _ k Hk; lia | reflexivity] | reflexivity]|].
    intros resp H; discriminate H.
  - cbn [seq get_complete_response_loop].
    destruct (is_critical_err (send s)) eqn:Hc.
    + destruct (send s) as [resp|e] eqn:Hs.
      * stop_here s Hs. intros resp' H; injection H as <-.
        rewrite Nat.add_sub, Hs, Hc. auto.
      * stop_here s Hs. intros resp' H; discriminate H.
    + specialize (IH (S s) (pre ++ [s])).
      destruct (get_complete_response_loop _ _ _ _ (seq (S s) n) (pre ++ [s])) as [r sent].
      destruct IH as (m & Hsent & Hm & Hpre & [Hretry Hretry_m] & Hdone).
      exists (S m). split; [rewrite Hsent, <- app_assoc; reflexivity|].
      split; [lia|]. split.
      * intros k Hk1 Hk2. destruct (decide (k = s)) as [->|Hne]; [exact Hc|]. apply Hpre; lia.
      * split; [split; [split|]|].
        -- intros Hr k Hk. destruct (decide (k = s)) as [->|Hne]; [exact Hc|].
           apply (proj1 Hretry Hr). lia.
        -- intros H. apply Hretry. intros k Hk. apply H. lia.
        -- intros Hr. rewrite (Hretry_m Hr). reflexivity.
        -- intros resp Hr. destruct (Hdone resp Hr) as (H1 & H2 & H3).
           replace (s + S m - 1) with (S s + m - 1) by lia. auto with lia.
    + destruct (send s) as [resp|e] eqn:Hs;
        (stop_here s Hs; intros resp' H; discriminate H).
Qed.
End Lemmas.

(** X10: [get_chat_response] and [get_complete_response] send the request
    at most [RETRY_N] times, retrying only after a [NonCritical] result;
    they return [RetryError(request, RETRY_N)] exactly when all [RETRY_N]
    attempts are [NonCritical]; a response they return is the answer of
    the last attempt, classified [Normal] (and, for chat, after the usage
    log succeeded). *)
Theorem request_retry_bounded (Response : Type) (send : nat -> Response + string)
    (is_critical_err : Response + string -> Critical)
    (log_openai_usage : Response -> option string) (request_debug : string) :
  (let '(r, sent) := get_chat_response Response send is_critical_err log_openai_usage request_debug in
   exists m, sent = seq 0 m /\ m <= RETRY_N /\
     (forall k, k + 1 < m -> is_critical_err (send k) = NonCritical) /\
     ((r = Failed (RetryError request_debug RETRY_N) <->
        forall k, k < RETRY_N -> is_critical_err (send k) = NonCritical) /\
      (r = Failed (RetryError request_debug RETRY_N) -> m = RETRY_N)) /\
     (forall resp, r = Done resp ->
        1 <= m /\ send (m - 1) = inl resp /\ is_critical_err (send (m - 1)) = Normal /\
        log_openai_usage resp = None)) /\
  (let '(r, sent) := get_complete_response Response send is_critical_err request_debug in
   exists m, sent = seq 0 m /\ m <= RETRY_N /\
     (forall k, k + 1 < m -> is_critical_err (send k) = NonCritical) /\
     ((r = Failed (RetryError request_debug RETRY_N) <->
        forall k, k < RETRY_N -> is_critical_err (send k) = NonCritical) /\
      (r = Failed (RetryError request_debug RETRY_N) -> m = RETRY_N)) /\
     (forall resp, r = Done resp ->
        1 <= m /\ send (m - 1) = inl resp /\ is_critical_err (send (m - 1)) = Normal)).
Proof.
  split.
  - pose proof (chat_loop_spec Response send is_critical_err log_openai_usage request_debug
                  RETRY_N 0 []) as H.
    unfold get_chat_response.
    destruct (get_chat_response_loop _ _ _ _ _ _ _) as [r sent].
    destruct H as (m & Hs & Hm & Hpre & [Hretry Hretry_m] & Hdone).
    exists m. split; [exact Hs|]. split; [exact Hm|].
    split; [intros k Hk; apply Hpre; lia|].
    split; [split; [rewrite Hretry; split; intros H k Hk; apply H; lia | exact Hretry_m]|].
    exact Hdone.
  - pose proof (complete_loop_spec Response send is_critical_err request_debug
                  RETRY_N 0 []) as H.
    unfold get_complete_response.
    destruct (get_complete_response_loop _ _ _ _ _ _) as [r sent].
    destruct H as (m & Hs & Hm & Hpre & [Hretry Hretry_m] & Hdone).
    exists m. split; [exact Hs|]. split; [exact Hm|].
    split; [intros k Hk; apply Hpre; lia|].
    split; [split; [rewrite Hretry; split; intros H k Hk; apply H; lia | exact Hretry_m]|].
    exact Hdone.
Qed.
End RequestProofs.

Module UsageProofs.
Import Wrapper Usage.
Local Open Scope N_scope.

Lemma digit_value_digit (d : N) : d < 10 -> digit_value (ascii_of_N (48 + d)) = Some d.
Proof.
  intros Hd. unfold digit_value. rewrite N_ascii_embedding by lia.
  replace ((48 <=? 48 + d) && (48 + d <=? 57)) with true.
  - f_equal. lia.
  - symmetry. apply andb_true_iff. split; apply N.leb_le; lia.
Qed.

Lemma digits_of_parse (fuel : nat) (n : N) (acc : str) :
  n < 10 ^ N.of_nat fuel -> n < 2 ^ 32 ->
  parse_digits (digits_of fuel n acc) 0 = parse_digits acc n.
Proof.
  revert n acc; induction fuel as [|fuel IH]; intros n acc Hf H32.
  - cbn in Hf. replace n with 0 by lia. reflexivity.
  - cbn [digits_of].
    assert (Hmod : n mod 10 < 10) by (apply N.mod_lt; lia).
    destruct (N.ltb_spec n 10) as [Hlt|Hge].
    + cbn [parse_digits]. rewrite digit_value_digit by exact Hmod.
      rewrite N.mod_small by exact Hlt.
      replace (0 * 10 + n) with n by lia.
      destruct (N.ltb_spec n (2 ^ 32)); [reflexivity | lia].
    + rewrite IH.
      * cbn [parse_digits]. rewrite digit_value_digit by exact Hmod.
        pose proof (N.div_mod n 10 ltac:(lia)) as Hdm.
        replace (n / 10 * 10 + n mod 10) with n by lia.
        destruct (N.ltb_spec n (2 ^ 32)); [reflexivity | lia].
      * rewrite Nat2N.inj_succ, N.pow_succ_r' in Hf.
        apply N.Div0.div_lt_upper_bound. lia.
      * apply N.le_lt_trans with n; [apply N.Div0.div_le_upper_bound; lia | exact H32].
Qed.

Lemma digits_of_digits (fuel : nat) (n : N) (acc : str) :
  Forall (fun c => is_Some (digit_value c)) acc ->
  Forall (fun c => is_Some (digit_value c)) (digits_of fuel n acc).
Proof.
  revert n acc; induction fuel as [|fuel IH]; intros n acc Hacc; [exact Hacc|].
  cbn [digits_of].
  assert (Hd : Forall (fun c => is_Some (digit_value c)) (ascii_of_N (48 + n mod 10) :: acc)).
  { constructor; [|exact Hacc]. rewrite digit_value_digit; [eauto | apply N.mod_lt; lia]. }
  destruct (n <? 10); [exact Hd | apply IH, Hd].
Qed.

Lemma digits_of_cons (fuel : nat) (n : N) (acc : str) :
  exists c l, digits_of (S fuel) n acc = c :: l /\ is_Some (digit_value c).
Proof.
  revert n acc; induction fuel as [|fuel IH]; intros n acc.
  - cbn. destruct (n <? 10); (eexists _, _; split; [reflexivity|];
      rewrite digit_value_digit; [eauto | apply N.mod_lt; lia]).
  - change (digits_of (S (S fuel)) n acc)
      with (if n <? 10 then ascii_of_N (48 + n mod 10) :: acc
            else digits_of (S fuel) (n / 10) (ascii_of_N (48 + n mod 10) :: acc)).
    destruct (n <? 10); [|apply IH].
    eexists _, _; split; [reflexivity|].
    rewrite digit_value_digit; [eauto | apply N.mod_lt; lia].
Qed.

Lemma parse_u32_to_string (n : N) : n < 2 ^ 32 -> parse_u32 (u32_to_string n) = Some n.
Proof.
  intros H32. unfold u32_to_string.
  destruct (digits_of_cons 9 n []) as (c & l & Hcl & Hc).
  unfold parse_u32. rewrite Hcl.
  destruct (ascii_dec c "+"%char) as [->|Hne].
  - cbv in Hc. destruct Hc as [? Hc]. discriminate Hc.
  - rewrite <- Hcl, digits_of_parse; [reflexivity | cbn; lia | exact H32].
Qed.

Lemma digit_not_space (c : ascii) : is_Some (digit_value c) -> c <> " "%char.
Proof. intros [d Hd] ->. discriminate Hd. Qed.

Lemma split_char_no_sep (sep : ascii) (a : str) :
  ~ In sep a -> split_char sep a = [a].
Proof.
  induction a as [|c a IH]; intros Hn; [reflexivity|].
  cbn. destruct (ascii_dec c sep) as [->|Hne]; [exfalso; apply Hn; left; reflexivity|].
  rewrite IH; [reflexivity|]. intros Hin; apply Hn; right; exact Hin.
Qed.

Lemma split_char_app (sep : ascii) (a rest : str) :
  ~ In sep a -> split_char sep (a ++ sep :: rest) = a :: split_char sep rest.
Proof.
  induction a as [|c a IH]; intros Hn.
  - cbn. destruct (ascii_dec sep sep); [reflexivity | contradiction].
  - cbn [app split_char]. destruct (ascii_dec c sep) as [->|Hne];
      [exfalso; apply Hn; left; reflexivity|].
    rewrite IH; [reflexivity|]. intros Hin; apply Hn; right; exact Hin.
Qed.

Lemma u32_to_string_no_space (n : N) : ~ In " "%char (u32_to_string n).
Proof.
  intros Hin. pose proof (digits_of_digits 10 n [] (List.Forall_nil _)) as H.
  rewrite Forall_forall in H.
  exact (digit_not_space _ (H _ (proj2 (list_elem_of_In _ _) Hin)) eq_refl).
Qed.

(** X11: [load_openai_usage] reads back the counters [log_openai_usage]
    writes: for [u32] counters and a quota cost whose display has no space
    and parses back, loading the written content sets the three globals to
    the written values. *)
Theorem load_openai_usage_roundtrip (f32 : Type) (f32_to_string : f32 -> str)
    (parse_f32 : str -> option f32) (u u0 : Counters f32) (q : f32) :
  PROMPT_USAGE f32 u < 2 ^ 32 -> COMPLETION_USAGE f32 u < 2 ^ 32 ->
  ~ In " "%char (f32_to_string (QUOTA_COST f32 u)) ->
  parse_f32 (f32_to_string (QUOTA_COST f32 u)) = Some q ->
  load_openai_usage f32 parse_f32 (Some (usage_log_content f32 f32_to_string u)) u0
  = (ROk tt, mkCounters f32 (PROMPT_USAGE f32 u) (COMPLETION_USAGE f32 u) q).
Proof.
  intros Hp Hc Hq Hparse.
  unfold load_openai_usage, usage_log_content. cbn [app].
  rewrite (split_char_app _ _ _ (u32_to_string_no_space _)).
  rewrite (split_char_app _ _ _ (u32_to_string_no_space _)).
  rewrite (split_char_no_sep _ _ Hq). cbn [length Nat.eqb negb].
  rewrite (parse_u32_to_string _ Hp), (parse_u32_to_string _ Hc), Hparse.
  reflexivity.
Qed.

Lemma load_openai_usage_roundtrip_witness :
  load_openai_usage N parse_u32
    (Some (usage_log_content N u32_to_string (mkCounters N 1200 345 7))) (mkCounters N 0 0 0)
  = (ROk tt, mkCounters N 1200 345 7).
Proof.
  apply (load_openai_usage_roundtrip N u32_to_string parse_u32 (mkCounters N 1200 345 7)).
  - cbn. lia.
  - cbn. lia.
  - apply u32_to_string_no_space.
  - vm_compute. reflexivity.
Defined.

End UsageProofs.

Module RecheckProofs.
Import Recheck.

Ltac unfold_rc := unfold mbind, st_bind, mret, st_ret, rc_call, rc_emit in *.

Lemma filter_filter_nat (P Q : nat -> bool) (l : list nat) :
  List.filter P (List.filter Q l) = List.filter (fun f => Q f && P f) l.
Proof.
  induction l as [|x l IH]; [reflexivity|].
  cbn. destruct (Q x); cbn; [destruct (P x); cbn; rewrite IH; reflexivity | exact IH].
Qed.

Lemma filter_ext_nat (P Q : nat -> bool) (l : list nat) :
  (forall x, In x l -> P x = Q x) -> List.filter P l = List.filter Q l.
Proof.
  induction l as [|x l IH]; intros H; [reflexivity|].
  cbn. rewrite (H x (or_introl eq_refl)), IH; [reflexivity|].
  intros y Hy; apply H; right; exact Hy.
Qed.

Lemma remove_seed_ok (env : RecheckEnv) (i : nat) (w w2 : RcWorld) :
  remove_seed env i w = (ROk tt, w2) ->
  succ_files w2 = succ_files w /\ seed_files w2 = seed_files w ∖ {[i]}.
Proof.
  unfold remove_seed. destruct (bool_decide (i ∈ seed_files w)) eqn:Hs.
  - destruct (rc_fails env ORemove i); [discriminate|]. intros H; injection H as <-. auto.
  - intros H; injection H as <-. split; [reflexivity|].
    apply bool_decide_eq_false in Hs. set_solver.
Qed.

Lemma recheck_loop_spec (env : RecheckEnv) (ps : list nat) (w w' : RcWorld) :
  NoDup ps -> (forall p, In p ps -> In p (succ_files w)) ->
  recheck_loop env ps w = (ROk tt, w') ->
  succ_files w' = List.filter (fun f => negb (bool_decide (f ∈ ps) && rechecked_as_error env f)) (succ_files w) /\
  seed_files w' = seed_files w ∖ list_to_set (map (rc_program_id env) (List.filter (rechecked_as_error env) ps)).
Proof.
  revert w; induction ps as [|p ps IH]; intros w Hnd Hin Hrun.
  - cbn in Hrun. injection Hrun as <-. split.
    + rewrite (filter_ext_nat _ (fun _ => true)) by (intros x _; reflexivity).
      clear. induction (succ_files w) as [|x l IH]; [reflexivity | cbn; f_equal; exact IH].
    + cbn. set_solver.
  - apply NoDup_cons in Hnd as [Hp Hnd].
    cbn [recheck_loop] in Hrun. unfold_rc. unfold id in Hrun.
    cbn [succ_files seed_files rc_events] in Hrun.
    destruct (rc_fails env OLoadSeed p); [discriminate Hrun|].
    destruct (rc_fails env OCompileSeed (rc_program_id env p)); [discriminate Hrun|].
    destruct (rc_fails env OCorpusDir (rc_program_id env p)); [discriminate Hrun|].
    destruct (rc_fails env OWorkSeed (rc_program_id env p)); [discriminate Hrun|].
    destruct (rc_execute_pool env (rc_program_id env p)) as [msg|] eqn:Hex.
    + destruct (rc_fails env OSeedPath (rc_program_id env p)); [discriminate Hrun|].
      destruct (rc_fails env OSaveErr (rc_program_id env p)); [discriminate Hrun|].
      unfold remove_succ in Hrun. cbn [succ_files seed_files rc_events] in Hrun.
      assert (Hpin : In p (succ_files w)) by (apply Hin; left; reflexivity).
      rewrite (bool_decide_eq_true_2 (p ∈ succ_files w)) in Hrun
        by (apply list_elem_of_In; exact Hpin).
      destruct (rc_fails env ORemove p); [discriminate Hrun|]. cbn [orb negb] in Hrun.
      match type of Hrun with
      | context [remove_seed env ?i ?w1] => destruct (remove_seed env i w1) as [r2 w2] eqn:Hrs
      end.
      destruct r2 as [[]| |]; [|discriminate Hrun|discriminate Hrun].
      rename Hrun into Hrun2.
      destruct (remove_seed_ok _ _ _ _ Hrs) as [Hs2 Hseed2].
      cbn [succ_files seed_files] in Hs2, Hseed2.
      assert (Hin2 : forall q, In q ps -> In q (succ_files w2)).
      { intros q Hq. rewrite Hs2. cbn. apply filter_In. split; [apply Hin; right; exact Hq|].
        apply negb_true_iff, Nat.eqb_neq. intros ->. apply Hp, list_elem_of_In, Hq. }
      destruct (IH w2 Hnd Hin2 Hrun2) as [Hsucc Hseed].
      split.
      * rewrite Hsucc, Hs2. rewrite filter_filter_nat.
        apply filter_ext_nat. intros x _.
        destruct (Nat.eqb_spec x p) as [->|Hne].
        -- replace (rechecked_as_error env p) with true by (unfold rechecked_as_error; rewrite Hex; reflexivity).
           rewrite (bool_decide_eq_true_2 (p ∈ p :: ps)) by set_solver. reflexivity.
        -- cbn [negb andb].
           f_equal. f_equal. apply bool_decide_ext. set_solver.
      * rewrite Hseed, Hseed2.
        cbn [List.filter]. replace (rechecked_as_error env p) with true by (unfold rechecked_as_error; rewrite Hex; reflexivity).
        cbn [map list_to_set]. set_solver.
    + eapply IH in Hrun as [Hsucc Hseed];
        [| exact Hnd | cbn; intros q Hq; apply Hin; right; exact Hq].
      cbn [succ_files seed_files] in Hsucc, Hseed.
      split.
      * rewrite Hsucc. apply filter_ext_nat. intros x _.
        destruct (Nat.eqb_spec x p) as [->|Hne].
        -- replace (rechecked_as_error env p) with false by (unfold rechecked_as_error; rewrite Hex; reflexivity).
           rewrite !andb_false_r. reflexivity.
        -- f_equal. f_equal. apply bool_decide_ext. set_solver.
      * rewrite Hseed. cbn [List.filter].
        replace (rechecked_as_error env p) with false by (unfold rechecked_as_error; rewrite Hex; reflexivity). reflexivity.
Qed.

(** X13: a successful [recheck_seed] over a succ seed dir without
    duplicates removes from it exactly the seeds rechecked as errors, and
    removes from the seed queue dir exactly the seed files of their ids. *)
Theorem recheck_seed_removes_failing (env : RecheckEnv) (w w' : RcWorld) :
  NoDup (succ_files w) ->
  recheck_seed env w = (ROk tt, w') ->
  succ_files w' = List.filter (fun f => negb (rechecked_as_error env f)) (succ_files w) /\
  seed_files w' = seed_files w ∖ list_to_set (map (rc_program_id env)
                                                 (List.filter (rechecked_as_error env) (succ_files w))).
Proof.
  intros Hnd Hrun. unfold recheck_seed in Hrun.
  destruct (recheck_loop_spec env (succ_files w) w w' Hnd (fun p Hp => Hp) Hrun) as [H1 H2].
  split; [|exact H2].
  rewrite H1. apply filter_ext_nat. intros x Hx.
  rewrite (bool_decide_eq_true_2 (x ∈ succ_files w)) by (apply list_elem_of_In; exact Hx).
  reflexivity.
Qed.
Lemma recheck_seed_removes_failing_witness :
  recheck_seed (mkRcEnv (fun _ _ => false) (fun p => p)
                  (fun i => if i =? 2 then Some "crash"%string else None))
    (mkRcWorld [1; 2; 3] {[1; 2; 3]} [])
  = (ROk tt, mkRcWorld [1; 3] {[1; 3]}
               [EvCompileSeed 1; EvCompileSeed 2; EvSaveErr 2 "crash"; EvDeleteQueue 2;
                EvCompileSeed 3]) /\
  [1; 3] = List.filter (fun f => negb (rechecked_as_error
             (mkRcEnv (fun _ _ => false) (fun p => p)
                (fun i => if i =? 2 then Some "crash"%string else None)) f)) [1; 2; 3].
Proof.
  assert (Hrun : recheck_seed (mkRcEnv (fun _ _ => false) (fun p => p)
                  (fun i => if i =? 2 then Some "crash"%string else None))
    (mkRcWorld [1; 2; 3] {[1; 2; 3]} [])
  = (ROk tt, mkRcWorld [1; 3] {[1; 3]}
               [EvCompileSeed 1; EvCompileSeed 2; EvSaveErr 2 "crash"; EvDeleteQueue 2;
                EvCompileSeed 3])) by (vm_compute; reflexivity).
  assert (Hnd : NoDup [1; 2; 3]) by (repeat constructor; set_solver).
  split; [exact Hrun|].
  exact (proj1 (recheck_seed_removes_failing _ (mkRcWorld [1; 2; 3] {[1; 2; 3]} []) _ Hnd Hrun)).
Defined.
End RecheckProofs.
